(** * rungittest: run shell tests in parallel

    A shallow embedding of [main.go] (both variants found in the repository)
    and the properties of its executor [runTest] and of the scheduling loop
    of [main].

    Byte slices and Go strings are both sequences of bytes; they are modelled
    by [string] (a list of 8-bit [ascii] characters), so that [string(b)] and
    [[]byte(s)] are the identity.  A Go [error] value is modelled by
    [option string]: [None] is [nil] and [Some e] is an error whose
    [Error()] text is [e]. *)

From Stdlib Require Import Ascii.
From stdpp Require Import gmap strings list sorting.

Local Open Scope nat_scope.

(** ** Bytes *)

(** The line feed byte, and the one-byte string ["\n"]. *)
Definition LF : ascii := "010"%char.
Definition nl : string := String LF "".

(** [bytes.Split(s, sep)] for a separator of a single byte, which is the only
    way the program calls it ([[]byte("\n")]): the pieces of [s] between
    consecutive occurrences of [sep].  A string with [n] separators has
    [n + 1] pieces; in particular the empty string has one (empty) piece. *)
Fixpoint bytes_Split (s : string) (sep : ascii) : list string :=
  match s with
  | EmptyString => [""]
  | String c s' =>
      if Ascii.eqb c sep then "" :: bytes_Split s' sep
      else match bytes_Split s' sep with
           | l :: ls => String c l :: ls
           | [] => [String c ""]
           end
  end.

(** [strings.Join(elems, sep)]. *)
Fixpoint strings_Join (elems : list string) (sep : string) : string :=
  match elems with
  | [] => ""
  | [e] => e
  | e :: es => e +:+ sep +:+ strings_Join es sep
  end.

(** The first [n] bytes of [s] (the slice [s[:n]], or all of [s] when it
    is shorter). *)
Fixpoint first_bytes (n : nat) (s : string) : string :=
  match n, s with
  | S n, String c s' => String c (first_bytes n s')
  | _, _ => ""
  end.

(** ** The result of one test *)

(** [type result struct { name string; summary string; err error }].
    A field that a composite literal leaves out has its zero value: [""] for
    a string. *)
Record result := mkResult {
  name : string;
  summary : string;
  err : option string;
}.

Global Instance result_eq_dec : EqDecision result.
Proof. solve_decision. Defined.

(** ** The operating system *)

(** What the program does to its environment is recorded in a chronological
    trace next to the files it has written. *)
Inductive Event :=
  | EvMkdirAll (path : string)
  | EvCreate (path : string) (ok : bool)
  | EvExec (script : string)
  | EvWriteFile (path : string) (ok : bool).

Global Instance Event_eq_dec : EqDecision Event.
Proof. solve_decision. Defined.

Record OS := mkOS {
  files : gmap string string;
  trace : list Event;
}.

(** What [cmd.Run()] leaves behind: the two captured streams and the error
    ([nil] when the script exited with status 0). *)
Record ProcOut := mkProcOut {
  p_stdout : string;
  p_stderr : string;
  p_err : option string;
}.

(** The collaborators of the program that are not code of this repository:
    the path functions, the file system's verdict on each request, the test
    scripts, the clock and the Go runtime.  The verdicts may depend on
    everything the program has done so far.

    [WriteFile_err] is the error of [ioutil.WriteFile], and for a call that
    fails [WriteFile_written] tells how far it got: [None] when the file
    could not be opened, [Some n] when it was opened and [n] bytes were
    written before the error.

    [chan_max] is the largest size for which the runtime makes a channel
    on this machine.  Above the limit of the platform [make] panics
    ("makechan: size out of range"; for a channel of ints on a 64-bit
    platform that limit is a little below [2^45]), and below it the runtime
    ends the process when the machine has no memory for the buffer.

    What the model takes for granted: the test scripts terminate; they
    leave the files that the program writes alone, so that [files] changes
    by the program's own writes only; a write to an open log file
    succeeds, and so does printing on the standard output; and the process
    has the memory for what it holds for each entry. *)
Record Env := mkEnv {
  filepath_Join : string → string → string;
  filepath_Glob : string → list string * option string;
  MkdirAll_err : OS → string → option string;
  Create_err : OS → string → option string;
  sh : OS → string → ProcOut;
  WriteFile_err : OS → string → option string;
  WriteFile_written : OS → string → option nat;
  chan_max : N;
  os_Args : list string;
  now_RFC3339 : OS → string;
  elapsed_String : OS → string;
}.

(** ** A small state monad over [OS] *)

Definition IO (A : Type) : Type := OS → A * OS.

Definition ret {A} (a : A) : IO A := λ w, (a, w).
Definition bind {A B} (m : IO A) (k : A → IO B) : IO B :=
  λ w, let '(a, w') := m w in k a w'.

Notation "'do' x <- m ; k" := (bind m (λ x, k))
  (at level 10, x name, m at level 100, k at level 200).
Notation "m ;; k" := (bind m (λ _, k))
  (at level 100, k at level 200, right associativity).

Definition emit (e : Event) (w : OS) : OS :=
  {| files := files w; trace := trace w ++ [e] |}.

(** ** The executor *)

(** Lines 75-80 of [runTest]: the first of the last three elements of the
    split, when the split has at least three elements. *)
Definition summaryBody (out : string) : string :=
  let lines := bytes_Split out LF in
  if 3 <=? length lines then
    let lines := drop (length lines - 3) lines in
    default "" (head lines)
  else "".

(** Lines 82-86: the prefix tells whether [cmd.Run()] returned an error. *)
Definition prefixed (err : option string) (summary : string) : string :=
  match err with
  | Some _ => "error: " +:+ summary
  | None => "ok: " +:+ summary
  end.

(** Lines 65-68. *)
Definition errStr (err : option string) : string :=
  match err with
  | Some e => e
  | None => "success"
  end.

Section Executor.
Variable E : Env.

(** [os.Create(path)]: on success the file exists and is empty. *)
Definition os_Create (path : string) : IO (option string) := λ w,
  match Create_err E w path with
  | Some e => (Some e, emit (EvCreate path false) w)
  | None => (None, {| files := <[path := ""]> (files w);
                      trace := trace w ++ [EvCreate path true] |})
  end.

(** [exec.Command("/bin/sh", name)] with both streams captured, then
    [cmd.Run()].  What the script does to files of its own is not
    recorded. *)
Definition cmd_Run (name : string) : IO ProcOut := λ w,
  (sh E w name, emit (EvExec name) w).

(** [f.Write(b)], and [fmt.Fprintf(f, s)] once its verbs are filled in: the
    bytes are appended to the file.  The program ignores what the calls
    return, and here every write goes through. *)
Definition f_Write (f : string) (b : string) : IO unit := λ w,
  (tt, {| files := alter (λ c, c +:+ b) f (files w); trace := trace w |}).

(** [func runTest(name, outdir string) *result], first variant (lines
    49-93).  The deferred [f.Close()] changes nothing that is recorded. *)
Definition runTest (name outdir : string) : IO result :=
  let f := filepath_Join E outdir (name +:+ ".log") in
  do err <- os_Create f;
  match err with
  | Some e => ret {| name := ""; summary := "create error"; err := Some e |}
  | None =>
      do p <- cmd_Run name;
      f_Write f ("*** EXIT: " +:+ errStr (p_err p) +:+ " ***" +:+ nl +:+ nl) ;;
      f_Write f ("*** STDOUT: ***" +:+ nl +:+ nl) ;;
      f_Write f (p_stdout p) ;;
      f_Write f (nl +:+ nl +:+ "*** STDERR: ***" +:+ nl +:+ nl) ;;
      f_Write f (p_stderr p) ;;
      ret {| name := name;
             summary := prefixed (p_err p) (summaryBody (p_stdout p));
             err := p_err p |}
  end.

End Executor.

(** The second variant of the file differs in [runTest] only by what it
    writes to the log before the captured output. *)
Module V2.
Section Executor.
Variable E : Env.

(** [func runTest(name, outdir string) *result], second variant (lines
    199-238). *)
Definition runTest (name outdir : string) : IO result :=
  let f := filepath_Join E outdir (name +:+ ".log") in
  do err <- os_Create E f;
  match err with
  | Some e => ret {| name := ""; summary := "create error"; err := Some e |}
  | None =>
      do p <- cmd_Run E name;
      f_Write f (nl +:+ nl +:+ "*** STDOUT: ***" +:+ nl +:+ nl) ;;
      f_Write f (p_stdout p) ;;
      f_Write f (nl +:+ nl +:+ "*** STDERR: ***" +:+ nl +:+ nl) ;;
      f_Write f (p_stderr p) ;;
      ret {| name := name;
             summary := prefixed (p_err p) (summaryBody (p_stdout p));
             err := p_err p |}
  end.

End Executor.
End V2.

(** Names for what [runTest] leaves behind. *)
Section Log.
Variable E : Env.
Implicit Types (name outdir : string) (w : OS).

(** The log file of a test. *)
Definition logfile outdir name : string :=
  filepath_Join E outdir (name +:+ ".log").

(** The text of the log after the header. *)
Definition log_body (p : ProcOut) : string :=
  nl +:+ nl +:+ "*** STDOUT: ***" +:+ nl +:+ nl +:+ p_stdout p +:+
  nl +:+ nl +:+ "*** STDERR: ***" +:+ nl +:+ nl +:+ p_stderr p.

Definition exit_header (p : ProcOut) : string :=
  "*** EXIT: " +:+ errStr (p_err p) +:+ " ***".

(** The world in which the script runs, and what [runTest] leaves. *)
Definition created (f : string) w : OS :=
  {| files := <[f := ""]> (files w); trace := trace w ++ [EvCreate f true] |}.

Definition logged (f text script : string) w : OS :=
  {| files := <[f := text]> (files w);
     trace := trace w ++ [EvCreate f true; EvExec script] |}.

End Log.

(** ** The scheduler *)

(** Where the goroutine started for one entry stands (lines 125-130). *)
Inductive pc :=
  | Pending                  (* at [throttle <- 1] *)
  | Acquired                 (* the send is done: about to call [runTest] *)
  | Returned (r : result)    (* [runTest] returned [r]: at [results <- r] *)
  | Delivered (r : result)   (* the deferred [<-throttle] is left *)
  | Finished (r : result).

Global Instance pc_eq_dec : EqDecision pc.
Proof. solve_decision. Defined.

(** What the program prints on its standard output, one item per call:
    [Progress k n name summary] for the [Printf] of line 136,
    [Newline] for [fmt.Println()], [Report k elapsed] for line 153. *)
Inductive Out :=
  | Progress (k n : nat) (name summary : string)
  | Newline
  | Report (k : nat) (elapsed : string).

(** The state of the process while the goroutines run: the goroutines in
    the order of [entries], the number of elements buffered in [throttle]
    (all of them are [1]), the buffer of [results] (oldest first), the
    number [i] of results [main] has received, its [failed] slice, the
    standard output and the operating system. *)
Record State := mkState {
  units : list (string * pc);
  throttle : nat;
  results : list result;
  i : nat;
  failed : list string;
  stdout : list Out;
  os : OS;
}.

(** The threads of the process. *)
Inductive tid :=
  | Main
  | Go (k : nat).

Definition is_holding (p : pc) : bool :=
  match p with
  | Acquired | Returned _ | Delivered _ => true
  | Pending | Finished _ => false
  end.

Definition has_run (p : pc) : bool :=
  match p with
  | Returned _ | Delivered _ | Finished _ => true
  | Pending | Acquired => false
  end.

Definition has_sent (p : pc) : bool :=
  match p with
  | Delivered _ | Finished _ => true
  | Pending | Acquired | Returned _ => false
  end.

Definition pc_result (p : pc) : option result :=
  match p with
  | Returned r | Delivered r | Finished r => Some r
  | Pending | Acquired => None
  end.

(** The number of goroutines for which [f] holds. *)
Fixpoint countb (f : pc → bool) (us : list (string * pc)) : nat :=
  match us with
  | [] => 0
  | u :: us => (if f u.2 then 1 else 0) + countb f us
  end.

Definition holders (s : State) : nat := countb is_holding (units s).

Section Scheduler.
Variable E : Env.
(** The capacity of [throttle], the number of entries (which is the
    capacity of [results]) and the output directory. *)
Variables (cap N : nat) (out : string).

(** One step of goroutine [k] (lines 126-129).  A send on a buffered
    channel goes through when the buffer is not full, a receive when it is
    not empty.  With capacity 0 the channel is unbuffered: a send waits for
    a goroutine that is receiving, and on [throttle] a goroutine only
    receives after its own send went through, so no send ever goes through;
    that is what [throttle s <? cap] says then.  A call of [runTest] is one
    step; what it finds on the machine may depend on all that was done
    before it.  Two tests that share a log file (an entry that is matched
    twice) therefore do not mix their writes here as they can in the
    process, and nothing below is about the text of such a log. *)
Definition step_go (k : nat) (s : State) : option State :=
  match units s !! k with
  | None => None
  | Some (nm, Pending) =>
      if throttle s <? cap then
        Some {| units := <[k := (nm, Acquired)]> (units s);
                throttle := S (throttle s);
                results := results s; i := i s; failed := failed s;
                stdout := stdout s; os := os s |}
      else None
  | Some (nm, Acquired) =>
      let '(r, w) := runTest E nm out (os s) in
      Some {| units := <[k := (nm, Returned r)]> (units s);
              throttle := throttle s;
              results := results s; i := i s; failed := failed s;
              stdout := stdout s; os := w |}
  | Some (nm, Returned r) =>
      if length (results s) <? N then
        Some {| units := <[k := (nm, Delivered r)]> (units s);
                throttle := throttle s;
                results := results s ++ [r]; i := i s; failed := failed s;
                stdout := stdout s; os := os s |}
      else None
  | Some (nm, Delivered r) =>
      match throttle s with
      | S n =>
          Some {| units := <[k := (nm, Finished r)]> (units s);
                  throttle := n;
                  results := results s; i := i s; failed := failed s;
                  stdout := stdout s; os := os s |}
      | O => None
      end
  | Some (nm, Finished r) => None
  end.

(** One iteration of the loop of lines 134-141. *)
Definition step_main (s : State) : option State :=
  if i s <? N then
    match results s with
    | [] => None
    | r :: rs =>
        let line := Progress (i s + 1) N (name r) (summary r) in
        Some {| units := units s; throttle := throttle s;
                results := rs; i := S (i s);
                failed := match err r with
                          | Some _ => failed s ++ [name r]
                          | None => failed s
                          end;
                stdout := match err r with
                          | Some _ => stdout s ++ [line; Newline]
                          | None => stdout s ++ [line]
                          end;
                os := os s |}
    end
  else None.

Definition step (t : tid) (s : State) : option State :=
  match t with
  | Main => step_main s
  | Go k => step_go k s
  end.

(** The process under a schedule: the thread named next takes a step if
    it can, and is passed over if it is blocked or over. *)
Definition exec (sched : list tid) (s : State) : State :=
  foldl (λ s t, default s (step t s)) s sched.

Definition threads (s : State) : list tid :=
  Main :: (Go <$> seq 0 (length (units s))).

(** No thread can take a step. *)
Definition stuck (s : State) : bool :=
  forallb (λ t, bool_decide (step t s = None)) (threads s).

End Scheduler.

(** The state in which the goroutines have just been started.  (A goroutine
    that starts while [main] is still starting others is one that the
    schedule names early.) *)
Definition init (entries : list string) (w : OS) : State :=
  {| units := (λ e, (e, Pending)) <$> entries; throttle := 0;
     results := []; i := 0; failed := []; stdout := []; os := w |}.

(** ** The program *)

(** Why [log.Fatal] or [log.Fatalf] was called. *)
Inductive FatalCause :=
  | NoOutdir                          (* line 101 *)
  | NoGlob                            (* line 104 *)
  | GlobError (e : string)            (* line 111 *)
  | MkdirError (e : string)           (* line 117 *)
  | SummaryWriteError (e : string).   (* line 150 *)

(** How a run of the process under a schedule stands at the end of the
    schedule. *)
Inductive Outcome :=
  | Fatal (c : FatalCause) (w : OS)   (* [log.Fatal]: exit status 1 *)
  | Panic (w : OS)                    (* the runtime gives up: status 2 *)
  | Deadlock (s : State)              (* all goroutines asleep: status 2 *)
  | Running (s : State)               (* the schedule was too short *)
  | Exit0 (s : State).                (* [main] returned: exit status 0 *)

Definition exit_status (o : Outcome) : option Z :=
  match o with
  | Fatal _ _ => Some 1%Z
  | Panic _ | Deadlock _ => Some 2%Z
  | Running _ => None
  | Exit0 _ => Some 0%Z
  end.

(** [make(chan T, n)]: the runtime gives up for a negative size (a panic)
    and for a size above [chan_max] (a panic, or no memory for the buffer);
    otherwise the channel has capacity [n]. *)
Definition make_chan (E : Env) (n : Z) : option nat :=
  if ((n <? 0) || (Z.of_N (chan_max E) <? n))%Z then None
  else Some (Z.to_nat n).

(** [sort.Strings]: ascending in the order [<] of Go strings, which compares
    byte by byte. *)
Definition sort_Strings (l : list string) : list string :=
  merge_sort String.le l.

(** [%s] applied to a slice of strings, as in [fmt.Sprintf("%s", os.Args)]. *)
Definition fmt_Strings (l : list string) : string :=
  "[" +:+ strings_Join l " " +:+ "]".

Section Main.
Variable E : Env.

(** Lines 107-114: the matches of the patterns, one pattern after the
    other; the first error ends the program. *)
Fixpoint globAll (patterns : list string) (entries : list string)
    : string + list string :=
  match patterns with
  | [] => inr entries
  | f :: patterns =>
      match filepath_Glob E f with
      | (_, Some e) => inl e
      | (es, None) => globAll patterns (entries ++ es)
      end
  end.

(** [os.MkdirAll(path, 0755)]. *)
Definition os_MkdirAll (path : string) : IO (option string) := λ w,
  (MkdirAll_err E w path, emit (EvMkdirAll path) w).

(** [ioutil.WriteFile(path, data, 0644)] opens the file, which creates it
    or empties it, writes [data] and closes the file.  When the file cannot
    be opened nothing is changed; when the call fails later, the file holds
    the bytes that were written before the error. *)
Definition ioutil_WriteFile (path data : string) : IO (option string) := λ w,
  match WriteFile_err E w path with
  | Some e =>
      (Some e,
       {| files := match WriteFile_written E w path with
                   | None => files w
                   | Some n => <[path := first_bytes n data]> (files w)
                   end;
          trace := trace w ++ [EvWriteFile path false] |})
  | None => (None, {| files := <[path := data]> (files w);
                      trace := trace w ++ [EvWriteFile path true] |})
  end.

(** The text of the summary file (lines 147-149). *)
Definition summary_text (w : OS) (failed : list string) : string :=
  "# run " +:+ fmt_Strings (os_Args E) +:+ nl +:+
  "# on " +:+ now_RFC3339 E w +:+ ", elapsed " +:+ elapsed_String E w +:+
  ":" +:+ nl +:+ strings_Join failed nl.

(** Lines 142-153, once the loop has received all results. *)
Definition finish (out : string) (s : State) : Outcome :=
  let stdout := stdout s ++ [Newline] in
  let failed := sort_Strings (failed s) in
  let '(err, w) :=
    ioutil_WriteFile (filepath_Join E out "summary.txt")
                     (summary_text (os s) failed) (os s) in
  match err with
  | Some e => Fatal (SummaryWriteError e) w
  | None =>
      Exit0 {| units := units s; throttle := throttle s;
               results := results s; i := i s; failed := failed;
               stdout := stdout ++
                 [Report (length failed) (elapsed_String E (os s))];
               os := w |}
  end.

(** [func main()] of the first variant (lines 95-154), after [flag.Parse()]
    has given [jobs], [out] and the remaining arguments [args], under the
    schedule [sched] for the goroutines.  When all threads are blocked the
    Go runtime ends the process ("all goroutines are asleep").  Of the two
    channels, [throttle] has the size that the user gives; [results] has
    the size [N] of a slice that the process holds, for which there is
    memory. *)
Definition main (jobs : Z) (out : string) (args : list string)
    (sched : list tid) (w : OS) : Outcome :=
  if decide (out = "") then Fatal NoOutdir w
  else if decide (length args = 0) then Fatal NoGlob w
  else
    match globAll args [] with
    | inl e => Fatal (GlobError e) w
    | inr entries =>
        let '(err, w) := os_MkdirAll out w in
        match err with
        | Some e => Fatal (MkdirError e) w
        | None =>
            let N := length entries in
            match make_chan E jobs with
            | None => Panic w
            | Some cap =>
                let s := exec E cap N out sched (init entries w) in
                if i s <? N then
                  if stuck E cap N out s then Deadlock s else Running s
                else finish out s
            end
        end
    end.

End Main.

(** ** What holds of every state of a run *)

(** The entries whose test has been run. *)
Fixpoint ran (us : list (string * pc)) : list string :=
  match us with
  | [] => []
  | u :: us => if has_run u.2 then u.1 :: ran us else ran us
  end.

(** The results that the goroutines have put on [results], in the order of
    the entries. *)
Fixpoint delivered (us : list (string * pc)) : list result :=
  match us with
  | [] => []
  | u :: us =>
      match u.2 with
      | Delivered r | Finished r => r :: delivered us
      | Pending | Acquired | Returned _ => delivered us
      end
  end.

(** The names that the loop of [main] appends to [failed] when it receives
    the results [rs]. *)
Fixpoint failures (rs : list result) : list string :=
  match rs with
  | [] => []
  | r :: rs =>
      match err r with
      | Some _ => name r :: failures rs
      | None => failures rs
      end
  end.

(** The paths handed to [os.Create], and those it created. *)
Definition attempts (evs : list Event) : list string :=
  omap (λ e, match e with EvCreate f _ => Some f | _ => None end) evs.

Definition made (evs : list Event) : list string :=
  omap (λ e, match e with EvCreate f true => Some f | _ => None end) evs.

(** The scripts that were started. *)
Definition started (evs : list Event) : list string :=
  omap (λ e, match e with EvExec nm => Some nm | _ => None end) evs.

(** The progress lines among what was printed. *)
Definition is_progress (x : Out) : bool :=
  match x with
  | Progress _ _ _ _ => true
  | Newline | Report _ _ => false
  end.

Definition progress_lines (o : list Out) : list Out :=
  List.filter is_progress o.

(** The steps a goroutine still has to take, and those of the whole
    process. *)
Definition remaining (p : pc) : nat :=
  match p with
  | Pending => 4
  | Acquired => 3
  | Returned _ => 2
  | Delivered _ => 1
  | Finished _ => 0
  end.

Fixpoint weight (us : list (string * pc)) : nat :=
  match us with
  | [] => 0
  | u :: us => remaining u.2 + weight us
  end.

Section Invariant.
Variable E : Env.
Variables (cap : nat) (out : string).
(** The entries and the machine the goroutines were started on. *)
Variables (entries : list string) (w0 : OS).

Definition fuel (s : State) : nat :=
  weight (units s) + (length entries - i s).

Record Inv (s : State) : Prop := mkInv {
  inv_names : (units s).*1 = entries;
  inv_holders : holders s = throttle s;
  inv_cap : throttle s ≤ cap;
  inv_results : length (results s) + i s = countb has_sent (units s);
  inv_printed : length (progress_lines (stdout s)) = i s;
  inv_failed : failed s ++ failures (results s) ≡ₚ
               failures (delivered (units s));
  inv_os : ∃ evs,
    trace (os s) = trace w0 ++ evs ∧
    attempts evs ≡ₚ logfile E out <$> ran (units s) ∧
    dom (files (os s)) = dom (files w0) ∪ list_to_set (made evs);
  inv_produced : ∀ k nm p r,
    units s !! k = Some (nm, p) → pc_result p = Some r →
    ∃ w, r = (runTest E nm out w).1;
}.

End Invariant.

(** ** More of the program *)

(** Whether the byte [c] occurs in [s]. *)
Fixpoint has_byte (c : ascii) (s : string) : bool :=
  match s with
  | EmptyString => false
  | String x s' => Ascii.eqb x c || has_byte c s'
  end.

Section Steps.
Variable E : Env.
Variables (cap N : nat) (out : string).

(** The number of steps that the threads take under a schedule: the
    threads that are named while they are blocked or over take none. *)
Fixpoint steps_taken (sched : list tid) (s : State) : nat :=
  match sched with
  | [] => 0
  | t :: sched =>
      match step E cap N out t s with
      | Some s' => S (steps_taken sched s')
      | None => steps_taken sched s
      end
  end.

End Steps.

(** The line breaks among what was printed. *)
Definition is_newline (x : Out) : bool :=
  match x with
  | Newline => true
  | Progress _ _ _ _ | Report _ _ => false
  end.

(** [main] and the goroutines of [n] entries. *)
Definition all_threads (n : nat) : list tid := Main :: (Go <$> seq 0 n).

(** The second variant of [main] (lines 240-281) starts the same goroutines
    around its own [runTest]; its loop prints the same lines and keeps no
    list of failures, and it writes no summary.  The field [failed] of the
    state is not used. *)
Module Variant2.
Section Scheduler.
Variable E : Env.
Variables (cap N : nat) (out : string).

(** One step of goroutine [k] (lines 266-269). *)
Definition step_go (k : nat) (s : State) : option State :=
  match units s !! k with
  | None => None
  | Some (nm, Pending) =>
      if throttle s <? cap then
        Some {| units := <[k := (nm, Acquired)]> (units s);
                throttle := S (throttle s);
                results := results s; i := i s; failed := failed s;
                stdout := stdout s; os := os s |}
      else None
  | Some (nm, Acquired) =>
      let '(r, w) := V2.runTest E nm out (os s) in
      Some {| units := <[k := (nm, Returned r)]> (units s);
              throttle := throttle s;
              results := results s; i := i s; failed := failed s;
              stdout := stdout s; os := w |}
  | Some (nm, Returned r) =>
      if length (results s) <? N then
        Some {| units := <[k := (nm, Delivered r)]> (units s);
                throttle := throttle s;
                results := results s ++ [r]; i := i s; failed := failed s;
                stdout := stdout s; os := os s |}
      else None
  | Some (nm, Delivered r) =>
      match throttle s with
      | S n =>
          Some {| units := <[k := (nm, Finished r)]> (units s);
                  throttle := n;
                  results := results s; i := i s; failed := failed s;
                  stdout := stdout s; os := os s |}
      | O => None
      end
  | Some (nm, Finished r) => None
  end.

(** One iteration of the loop of lines 273-279. *)
Definition step_main (s : State) : option State :=
  if i s <? N then
    match results s with
    | [] => None
    | r :: rs =>
        let line := Progress (i s + 1) N (name r) (summary r) in
        Some {| units := units s; throttle := throttle s;
                results := rs; i := S (i s);
                failed := failed s;
                stdout := match err r with
                          | Some _ => stdout s ++ [line; Newline]
                          | None => stdout s ++ [line]
                          end;
                os := os s |}
    end
  else None.

Definition step (t : tid) (s : State) : option State :=
  match t with
  | Main => step_main s
  | Go k => step_go k s
  end.

Definition exec (sched : list tid) (s : State) : State :=
  foldl (λ s t, default s (step t s)) s sched.

Definition stuck (s : State) : bool :=
  forallb (λ t, bool_decide (step t s = None)) (threads s).

End Scheduler.

Section Main.
Variable E : Env.

(** [func main()] of the second variant: of the arguments only the first
    is expanded ([flag.Args()[0]]), and after the loop there is a last
    [fmt.Println()] and nothing else. *)
Definition main (jobs : Z) (out : string) (args : list string)
    (sched : list tid) (w : OS) : Outcome :=
  if decide (out = "") then Fatal NoOutdir w
  else
    match args with
    | [] => Fatal NoGlob w
    | glob :: _ =>
        match filepath_Glob E glob with
        | (_, Some e) => Fatal (GlobError e) w
        | (entries, None) =>
            let '(err, w) := os_MkdirAll E out w in
            match err with
            | Some e => Fatal (MkdirError e) w
            | None =>
                let N := length entries in
                match make_chan E jobs with
                | None => Panic w
                | Some cap =>
                    let s := exec E cap N out sched (init entries w) in
                    if i s <? N then
                      if stuck E cap N out s then Deadlock s else Running s
                    else
                      Exit0 {| units := units s; throttle := throttle s;
                               results := results s; i := i s;
                               failed := failed s;
                               stdout := stdout s ++ [Newline];
                               os := os s |}
                end
            end
        end
    end.

End Main.
End Variant2.

(** ** Comparing the two variants *)

(** A machine whose answers to [os.Create] and to the scripts depend on
    what the program has done before, and not on the text of the files. *)
Definition blind (E : Env) : Prop :=
  ∀ w w' x, trace w = trace w' →
    Create_err E w x = Create_err E w' x ∧ sh E w x = sh E w' x.

(** Two states that differ at most in the text of the files and in
    [failed]. *)
Definition same_run (s1 s2 : State) : Prop :=
  units s1 = units s2 ∧ throttle s1 = throttle s2 ∧
  results s1 = results s2 ∧ i s1 = i s2 ∧ stdout s1 = stdout s2 ∧
  trace (os s1) = trace (os s2).

(** Two states in which every goroutine stands at the same statement and
    the channels hold as many elements. *)
Definition same_shape (s1 s2 : State) : Prop :=
  Forall2 (λ u1 u2, u1.1 = u2.1 ∧ remaining u1.2 = remaining u2.2)
          (units s1) (units s2) ∧
  throttle s1 = throttle s2 ∧
  length (results s1) = length (results s2) ∧
  i s1 = i s2.

(** ** Concrete inputs *)

(** A machine on which nothing has happened yet. *)
Definition emptyOS : OS := {| files := ∅; trace := [] |}.

(** The bytes ["a\nb\nc\n"]. *)
Definition abc : string := "a" +:+ nl +:+ "b" +:+ nl +:+ "c" +:+ nl.

(** A directory with three scripts [t1], [t2], [t3]: [t1] and [t3] print
    three lines and exit with status 0, [t2] prints one line and exits with
    status 1; the log file of [t3] cannot be created.  The machine has
    memory to spare: the largest channel is the largest that the runtime
    allows for 8-byte elements in a 48-bit address space. *)
Definition demo : Env := {|
  filepath_Join := λ dir f, dir +:+ "/" +:+ f;
  filepath_Glob := λ pattern,
    if decide (pattern = "t*") then (["t1"; "t2"; "t3"], None)
    else if decide (pattern = "t1") then (["t1"], None)
    else if decide (pattern = "t1*") then (["t1"], None)
    else if decide (pattern = "[") then ([], Some "syntax error in pattern")
    else ([], None);
  MkdirAll_err := λ _ _, None;
  Create_err := λ _ path,
    if decide (path = "out/t3.log")
    then Some "open out/t3.log: permission denied" else None;
  sh := λ _ script,
    if decide (script = "t2")
    then {| p_stdout := "x" +:+ nl; p_stderr := "boom";
            p_err := Some "exit status 1" |}
    else {| p_stdout := abc; p_stderr := ""; p_err := None |};
  WriteFile_err := λ _ _, None;
  WriteFile_written := λ _ _, None;
  chan_max := (2 ^ 45 - 12)%N;
  os_Args := ["rungittest"; "--outdir"; "out"; "t*"];
  now_RFC3339 := λ _, "2009-11-10T23:00:00Z";
  elapsed_String := λ _, "1.5s";
|}.

(** The same directory on a machine that creates every log file. *)
Definition demo_writable : Env := {|
  filepath_Join := filepath_Join demo;
  filepath_Glob := filepath_Glob demo;
  MkdirAll_err := MkdirAll_err demo;
  Create_err := λ _ _, None;
  sh := sh demo;
  WriteFile_err := WriteFile_err demo;
  WriteFile_written := WriteFile_written demo;
  chan_max := chan_max demo;
  os_Args := os_Args demo;
  now_RFC3339 := now_RFC3339 demo;
  elapsed_String := elapsed_String demo;
|}.

(** The same directory on a machine whose disk is full when the summary is
    written: the file is made, and the write stops after 6 bytes. *)
Definition demo_full : Env := {|
  filepath_Join := filepath_Join demo;
  filepath_Glob := filepath_Glob demo;
  MkdirAll_err := MkdirAll_err demo;
  Create_err := Create_err demo;
  sh := sh demo;
  WriteFile_err := λ _ path,
    Some ("write " +:+ path +:+ ": no space left on device");
  WriteFile_written := λ _ _, Some 6;
  chan_max := chan_max demo;
  os_Args := os_Args demo;
  now_RFC3339 := now_RFC3339 demo;
  elapsed_String := elapsed_String demo;
|}.

(** A schedule that lets every thread take a turn, [n] times over. *)
Definition round_robin (n : nat) (threads : list tid) : list tid :=
  concat (replicate n threads).

(** The schedule of a run of the three scripts with two slots in which the
    goroutines started last go first, and the state it ends in. *)
Definition demo_schedule : list tid :=
  round_robin 6 [Go 2; Go 1; Go 0; Main].

Definition demo_final : State :=
  match main demo 2 "out" ["t*"] demo_schedule emptyOS with
  | Exit0 s => s
  | _ => init [] emptyOS
  end.

(** * Properties *)

(** ** Bytes and strings *)

Lemma append_nil_l (a : string) : "" +:+ a = a.
Proof. reflexivity. Qed.

Lemma append_cons (x : ascii) (a b : string) :
  String x a +:+ b = String x (a +:+ b).
Proof. reflexivity. Qed.

Lemma append_assoc (a b c : string) : (a +:+ b) +:+ c = a +:+ b +:+ c.
Proof.
  induction a as [|x a IH]; [done |].
  by rewrite !append_cons, IH.
Qed.

Lemma bytes_Split_length_pos s sep : 0 < length (bytes_Split s sep).
Proof.
  induction s as [|c s IH]; simpl; [lia |].
  destruct (Ascii.eqb c sep); simpl; [lia |].
  destruct (bytes_Split s sep); simpl in *; lia.
Qed.

(** The slice expression and the index of lines 78-79 pick the element at
    index [len(lines) - 3] of the split. *)
Lemma summaryBody_lookup out :
  let lines := bytes_Split out LF in
  summaryBody out =
    if 3 <=? length lines then default "" (lines !! (length lines - 3))
    else "".
Proof.
  unfold summaryBody; cbv zeta.
  by rewrite head_lookup, lookup_drop, Nat.add_0_r.
Qed.

Lemma summaryBody_short out :
  length (bytes_Split out LF) < 3 → summaryBody out = "".
Proof.
  intros H. unfold summaryBody.
  destruct (Nat.leb_spec 3 (length (bytes_Split out LF))); [lia | done].
Qed.

(** ** The executor *)

Section ExecutorFacts.
Variable E : Env.
Implicit Types (name outdir : string) (w : OS).

(** What [runTest] does when the log file cannot be created. *)
Lemma runTest_create_error name outdir w e :
  Create_err E w (logfile E outdir name) = Some e →
  runTest E name outdir w =
    ({| name := ""; summary := "create error"; err := Some e |},
     emit (EvCreate (logfile E outdir name) false) w).
Proof.
  intros H. unfold runTest, bind, os_Create, logfile in *. by rewrite H.
Qed.

Lemma runTest_created name outdir w :
  let f := logfile E outdir name in
  let p := sh E (created f w) name in
  Create_err E w f = None →
  runTest E name outdir w =
    ({| name := name;
        summary := prefixed (p_err p) (summaryBody (p_stdout p));
        err := p_err p |},
     logged f (exit_header p +:+ log_body p) name w).
Proof.
  intros f p H.
  unfold runTest, bind, os_Create, cmd_Run, f_Write, ret, emit, logfile in *.
  fold f. rewrite H. cbn [files trace]. fold (created f w). fold p.
  f_equal. unfold logged. f_equal.
  - rewrite !alter_insert_eq. f_equal.
    unfold exit_header, log_body.
    by rewrite append_nil_l, !append_assoc.
  - by rewrite <- app_assoc.
Qed.

Lemma V2_runTest_create_error name outdir w e :
  Create_err E w (logfile E outdir name) = Some e →
  V2.runTest E name outdir w =
    ({| name := ""; summary := "create error"; err := Some e |},
     emit (EvCreate (logfile E outdir name) false) w).
Proof.
  intros H. unfold V2.runTest, bind, os_Create, logfile in *. by rewrite H.
Qed.

Lemma V2_runTest_created name outdir w :
  let f := logfile E outdir name in
  let p := sh E (created f w) name in
  Create_err E w f = None →
  V2.runTest E name outdir w =
    ({| name := name;
        summary := prefixed (p_err p) (summaryBody (p_stdout p));
        err := p_err p |},
     logged f (log_body p) name w).
Proof.
  intros f p H.
  unfold V2.runTest, bind, os_Create, cmd_Run, f_Write, ret, emit, logfile in *.
  fold f. rewrite H. cbn [files trace]. fold (created f w). fold p.
  f_equal. unfold logged. f_equal.
  - rewrite !alter_insert_eq. f_equal.
    unfold log_body.
    by rewrite append_nil_l, !append_assoc.
  - by rewrite <- app_assoc.
Qed.

End ExecutorFacts.

(** ** Claims about the executor *)

(** C1. For every captured standard output, [runTest] splits the bytes on
    line feed; when the split has at least three elements the summary body
    is the element at index [count - 3], otherwise it is empty; the summary
    is the body after ["ok: "] when the script exited cleanly and after
    ["error: "] otherwise. *)
Theorem C1_summary_third_from_last (E : Env) (name outdir : string) (w : OS)
    (p : ProcOut) :
  Create_err E w (logfile E outdir name) = None →
  sh E (created (logfile E outdir name) w) name = p →
  let lines := bytes_Split (p_stdout p) LF in
  let count := length lines in
  ∃ body : string,
    summary (runTest E name outdir w).1 =
      (match p_err p with None => "ok: " | Some _ => "error: " end) +:+ body ∧
    (3 ≤ count → lines !! (count - 3) = Some body) ∧
    (count < 3 → body = "").
Proof.
  intros Hc Hp lines count.
  rewrite (runTest_created E name outdir w Hc), Hp. cbn [fst summary].
  exists (summaryBody (p_stdout p)). split; [by destruct (p_err p) |].
  rewrite summaryBody_lookup. fold lines count. split.
  - intros H3. destruct (Nat.leb_spec 3 count) as [_|]; [| lia].
    destruct (lookup_lt_is_Some_2 lines (count - 3)) as [x Hx]; [lia |].
    by rewrite Hx.
  - intros H3. by destruct (Nat.leb_spec 3 count) as [|_]; [lia |].
Qed.

Lemma C1_witness :
  Create_err demo emptyOS (logfile demo "out" "t1") = None ∧
  ∃ body : string,
    summary (runTest demo "t1" "out" emptyOS).1 = "ok: " +:+ body ∧
    (3 ≤ 4 → ["a"; "b"; "c"; ""] !! 1 = Some body) ∧ (4 < 3 → body = "").
Proof.
  split; [reflexivity |].
  exact (C1_summary_third_from_last demo "t1" "out" emptyOS
           {| p_stdout := abc; p_stderr := ""; p_err := None |}
           eq_refl eq_refl).
Defined.

(** C4, as the specification states it, fails: the split of ["a\nb\nc\n"]
    has four elements, the last one empty, and the third from the end is
    ["b"]. *)
Lemma C4_counterexample :
  sh demo (created "out/t1.log" emptyOS) "t1" =
    {| p_stdout := abc; p_stderr := ""; p_err := None |} ∧
  bytes_Split abc LF = ["a"; "b"; "c"; ""] ∧
  summary (runTest demo "t1" "out" emptyOS).1 = "ok: b" ∧
  summaryBody abc ≠ "a".
Proof. repeat split; try reflexivity. by vm_compute. Qed.

(** C4, amended. A test whose captured stdout is exactly ["a\nb\nc\n"] has
    summary body ["b"]; a test whose stdout splits into fewer than three
    elements has an empty summary body; the body comes after ["ok: "] when
    the script succeeded and after ["error: "] when it failed. *)
Theorem C4_summary_derivation (E : Env) (name outdir : string) (w : OS) :
  Create_err E w (logfile E outdir name) = None →
  let p := sh E (created (logfile E outdir name) w) name in
  let r := (runTest E name outdir w).1 in
  let pre := match p_err p with None => "ok: " | Some _ => "error: " end in
  (p_stdout p = abc → summary r = pre +:+ "b") ∧
  (length (bytes_Split (p_stdout p) LF) < 3 → summary r = pre +:+ "") ∧
  (p_err p = None ↔ err r = None).
Proof.
  intros Hc p r pre. subst r.
  rewrite (runTest_created E name outdir w Hc). fold p. cbn [fst summary err].
  assert (∀ body, prefixed (p_err p) body = pre +:+ body) as Hpre
    by (intros body; subst pre; by destruct (p_err p)).
  split; [| split; [| done]].
  - intros ->. by rewrite Hpre.
  - intros Hlt. by rewrite Hpre, summaryBody_short.
Qed.

Lemma C4_witness :
  Create_err demo emptyOS (logfile demo "out" "t1") = None ∧
  p_stdout (sh demo (created (logfile demo "out" "t1") emptyOS) "t1") = abc ∧
  summary (runTest demo "t1" "out" emptyOS).1 = "ok: b".
Proof.
  split; [reflexivity |]. split; [reflexivity |].
  exact (proj1 (C4_summary_derivation demo "t1" "out" emptyOS eq_refl)
               eq_refl).
Defined.

(** C7. Where the log file cannot be created, the result of [runTest] does
    not carry the name of the test: the composite literal of lines 52-55
    leaves [name] out, and [main] prints and records the empty string. *)
Theorem C7_create_error_drops_name :
  Create_err demo emptyOS (logfile demo "out" "t3") =
    Some "open out/t3.log: permission denied" ∧
  name (runTest demo "t3" "out" emptyOS).1 = "" ∧
  match main demo 2 "out" ["t*"] demo_schedule emptyOS with
  | Exit0 s =>
      failed s = [""; "t2"] ∧
      stdout s = [Progress 1 3 "" "create error"; Newline;
                  Progress 2 3 "t2" "error: "; Newline;
                  Progress 3 3 "t1" "ok: b"; Newline;
                  Report 2 "1.5s"]
  | _ => False
  end.
Proof. by vm_compute. Qed.

(** The defect behind C7, for every test and every machine. *)
Lemma runTest_create_error_name (E : Env) (name' outdir e : string) (w : OS) :
  Create_err E w (logfile E outdir name') = Some e →
  name (runTest E name' outdir w).1 = "".
Proof. intros H. by rewrite (runTest_create_error E _ _ _ _ H). Qed.

(** C10. The executors of the two variants return the same result and do the
    same things to the machine, except for the text of the log: the second
    variant writes the delimited stdout and stderr sections, in full and in
    that order, and the first writes the exit status header and then that
    same text. *)
Theorem C10_variants_agree (E : Env) (name outdir : string) (w : OS) :
  let f := logfile E outdir name in
  let '(r1, w1) := runTest E name outdir w in
  let '(r2, w2) := V2.runTest E name outdir w in
  r1 = r2 ∧ trace w1 = trace w2 ∧
  (∀ g, g ≠ f → files w1 !! g = files w2 !! g) ∧
  match Create_err E w f with
  | Some _ => files w1 = files w ∧ files w2 = files w
  | None =>
      let p := sh E (created f w) name in
      files w2 !! f =
        Some (nl +:+ nl +:+ "*** STDOUT: ***" +:+ nl +:+ nl +:+ p_stdout p +:+
              nl +:+ nl +:+ "*** STDERR: ***" +:+ nl +:+ nl +:+ p_stderr p) ∧
      ∀ text, files w2 !! f = Some text →
        files w1 !! f =
          Some ("*** EXIT: " +:+ errStr (p_err p) +:+ " ***" +:+ text)
  end.
Proof.
  intros f. destruct (Create_err E w f) as [e|] eqn:Hc.
  - rewrite (runTest_create_error E _ _ _ _ Hc).
    rewrite (V2_runTest_create_error E _ _ _ _ Hc). done.
  - rewrite (runTest_created E _ _ _ Hc), (V2_runTest_created E _ _ _ Hc).
    fold f. unfold logged. cbn [files trace].
    split; [done |]. split; [done |]. split.
    + intros g Hg. by rewrite !lookup_insert_ne.
    + rewrite !lookup_insert_eq. split; [done |].
      intros text [= <-]. unfold exit_header. by rewrite !append_assoc.
Qed.

(** ** The goroutines as a list *)

Section Units.
Implicit Types (us : list (string * pc)) (f : pc → bool) (k : nat).

Lemma countb_le f us : countb f us ≤ length us.
Proof. induction us as [|u us IH]; simpl; [lia |]. destruct (f u.2); lia. Qed.

Lemma countb_insert f us k nm p p' :
  us !! k = Some (nm, p) →
  countb f (<[k := (nm, p')]> us) + (if f p then 1 else 0) =
  countb f us + (if f p' then 1 else 0).
Proof.
  revert k. induction us as [|u us IH]; intros [|k] H; simplify_eq/=.
  - destruct (f p), (f p'); lia.
  - specialize (IH k H). destruct (f u.2); lia.
Qed.

Lemma countb_pos f us k nm p :
  us !! k = Some (nm, p) → f p = true → 0 < countb f us.
Proof.
  revert k. induction us as [|u us IH]; intros [|k] H Hf; simplify_eq/=.
  - rewrite Hf. lia.
  - specialize (IH k H Hf). lia.
Qed.

Lemma countb_lt f us k nm p :
  us !! k = Some (nm, p) → f p = false → countb f us < length us.
Proof.
  revert k. induction us as [|u us IH]; intros [|k] H Hf; simplify_eq/=.
  - rewrite Hf. pose proof (countb_le f us). lia.
  - specialize (IH k H Hf). destruct (f u.2); lia.
Qed.

Lemma weight_insert us k nm p p' :
  us !! k = Some (nm, p) →
  weight (<[k := (nm, p')]> us) + remaining p = weight us + remaining p'.
Proof.
  revert k. induction us as [|u us IH]; intros [|k] H; simplify_eq/=.
  - lia.
  - specialize (IH k H). lia.
Qed.

Lemma names_insert us k nm p p' :
  us !! k = Some (nm, p) → (<[k := (nm, p')]> us).*1 = us.*1.
Proof.
  revert k. induction us as [|u us IH]; intros [|k] H; simplify_eq/=.
  - done.
  - by rewrite (IH k H).
Qed.

Lemma ran_insert_same us k nm p p' :
  us !! k = Some (nm, p) → has_run p = has_run p' →
  ran (<[k := (nm, p')]> us) = ran us.
Proof.
  revert k. induction us as [|u us IH]; intros [|k] H Hr; simplify_eq/=.
  - by rewrite Hr.
  - by rewrite (IH k H Hr).
Qed.

Lemma ran_insert_new us k nm p p' :
  us !! k = Some (nm, p) → has_run p = false → has_run p' = true →
  ran (<[k := (nm, p')]> us) ≡ₚ nm :: ran us.
Proof.
  revert k. induction us as [|u us IH]; intros [|k] H Hp Hp'; simplify_eq/=.
  - by rewrite Hp, Hp'.
  - destruct (has_run u.2); [| by apply IH].
    rewrite (IH k H Hp Hp'). apply perm_swap.
Qed.

Lemma has_sent_run p : has_sent p = true → has_run p = true.
Proof. by destruct p. Qed.

Lemma ran_all us : countb has_sent us = length us → ran us = us.*1.
Proof.
  induction us as [|u us IH]; simpl; [done |]. intros H.
  pose proof (countb_le has_sent us).
  destruct (has_sent u.2) eqn:Hs; [| lia].
  rewrite (has_sent_run _ Hs). f_equal. apply IH. lia.
Qed.

(** Some goroutine holds a slot; or none does, and then some goroutine is
    waiting for one or all have delivered their result. *)
Lemma units_cases us :
  (∃ k nm p, us !! k = Some (nm, p) ∧ is_holding p = true) ∨
  (countb is_holding us = 0 ∧
   ((∃ k nm, us !! k = Some (nm, Pending)) ∨
    countb has_sent us = length us)).
Proof.
  induction us as [|[nm p] us IH]; [right; split; [done | by right] |].
  destruct (is_holding p) eqn:Hp; [left; by exists 0, nm, p |].
  destruct IH as [(k & nm' & p' & H & Hh) | [H0 IH]].
  { left. by exists (S k), nm', p'. }
  right. split; [cbn; by rewrite Hp |].
  destruct p; try done.
  - left. by exists 0, nm.
  - destruct IH as [(k & nm' & H) | H].
    + left. by exists (S k), nm'.
    + right. cbn. by rewrite H.
Qed.

Lemma delivered_insert_same us k nm p p' :
  us !! k = Some (nm, p) →
  (if has_sent p then pc_result p else None) =
  (if has_sent p' then pc_result p' else None) →
  delivered (<[k := (nm, p')]> us) = delivered us.
Proof.
  revert k. induction us as [|u us IH]; intros [|k] H Hr; simplify_eq/=.
  - by destruct p, p'; simplify_eq/=.
  - by rewrite (IH k H Hr).
Qed.

Lemma delivered_insert_new us k nm p r :
  us !! k = Some (nm, p) → has_sent p = false →
  delivered (<[k := (nm, Delivered r)]> us) ≡ₚ r :: delivered us.
Proof.
  revert k. induction us as [|u us IH]; intros [|k] H Hp; simplify_eq/=.
  - by destruct p.
  - destruct (u.2); rewrite (IH k H Hp); (done || apply perm_swap).
Qed.

Lemma failures_app rs rs' : failures (rs ++ rs') = failures rs ++ failures rs'.
Proof.
  induction rs as [|r rs IH]; simpl; [done |].
  destruct (err r); by rewrite IH.
Qed.

Lemma failures_perm rs rs' : rs ≡ₚ rs' → failures rs ≡ₚ failures rs'.
Proof.
  induction 1 as [|r rs rs' _ IH|r r' rs|rs rs' rs'' _ IH _ IH']; simpl.
  - done.
  - destruct (err r); by rewrite IH.
  - destruct (err r), (err r'); (done || apply perm_swap).
  - by rewrite IH.
Qed.

Lemma countb_all f us k nm p :
  countb f us = length us → us !! k = Some (nm, p) → f p = true.
Proof.
  revert k. induction us as [|u us IH]; intros [|k] Hc H; simplify_eq/=.
  - pose proof (countb_le f us). destruct (f p); [done | lia].
  - pose proof (countb_le f us). apply (IH k); [| done].
    destruct (f u.2); lia.
Qed.

End Units.

(** ** What [runTest] does to the machine *)

Lemma runTest_effect (E : Env) (name outdir : string) (w : OS) :
  ∃ evs,
    trace (runTest E name outdir w).2 = trace w ++ evs ∧
    attempts evs = [logfile E outdir name] ∧
    dom (files (runTest E name outdir w).2) =
      dom (files w) ∪ list_to_set (made evs).
Proof.
  destruct (Create_err E w (logfile E outdir name)) as [e|] eqn:Hc.
  - rewrite (runTest_create_error E _ _ _ _ Hc).
    exists [EvCreate (logfile E outdir name) false]. cbn.
    by rewrite (right_id_L ∅ (∪)).
  - rewrite (runTest_created E _ _ _ Hc).
    exists [EvCreate (logfile E outdir name) true; EvExec name]. cbn.
    by rewrite dom_insert_L, (right_id_L ∅ (∪)), (comm_L (∪)).
Qed.

(** [runTest] writes to the log file that it has created and to no other
    file. *)
Lemma runTest_untouched (E : Env) (name outdir : string) (w : OS) :
  ∃ evs,
    trace (runTest E name outdir w).2 = trace w ++ evs ∧
    ∀ g, g ∉ made evs → files (runTest E name outdir w).2 !! g = files w !! g.
Proof.
  destruct (Create_err E w (logfile E outdir name)) as [e|] eqn:Hc.
  - rewrite (runTest_create_error E _ _ _ _ Hc).
    by exists [EvCreate (logfile E outdir name) false].
  - rewrite (runTest_created E _ _ _ Hc).
    exists [EvCreate (logfile E outdir name) true; EvExec name]. cbn.
    split; [done |]. intros g Hg. apply lookup_insert_ne.
    intros <-. apply Hg, list_elem_of_here.
Qed.

(** ** The invariant of the scheduler *)

Section SchedulerFacts.
Variable E : Env.
Variables (cap : nat) (out : string) (entries : list string) (w0 : OS).

Local Abbreviation N := (length entries).
Local Abbreviation Inv := (Inv E cap out entries w0).
Local Abbreviation step := (step E cap N out).
Local Abbreviation exec := (exec E cap N out).

Lemma countb_init f : f Pending = false →
  countb f ((λ e, (e, Pending)) <$> entries) = 0.
Proof. intros Hf. induction entries as [|e es IH]; simpl; [done |]. by rewrite Hf. Qed.

Lemma ran_init : ran ((λ e, (e, Pending)) <$> entries) = [].
Proof. induction entries as [|e es IH]; simpl; done. Qed.

Lemma delivered_init : delivered ((λ e, (e, Pending)) <$> entries) = [].
Proof. induction entries as [|e es IH]; simpl; done. Qed.

Lemma Inv_init : Inv (init entries w0).
Proof.
  split; cbn.
  - rewrite <- list_fmap_compose. apply list_fmap_id.
  - unfold holders; cbn. by apply countb_init.
  - lia.
  - by rewrite countb_init.
  - done.
  - by rewrite delivered_init.
  - exists []. rewrite ran_init, app_nil_r. cbn.
    by rewrite (right_id_L ∅ (∪)).
  - intros k nm p r Hk Hr.
    apply list_lookup_fmap_Some in Hk as (e & Heq & _).
    injection Heq as -> ->. by cbn in Hr.
Qed.

Lemma Inv_length s : Inv s → length (units s) = N.
Proof. intros [Hn _ _ _ _ _ _ _]. by rewrite <- Hn, length_fmap. Qed.

Lemma Inv_received s : Inv s → i s ≤ N.
Proof.
  intros HI. pose proof (Inv_length s HI). destruct HI as [_ _ _ Hr _ _ _ _].
  pose proof (countb_le has_sent (units s)). lia.
Qed.

Lemma produced_insert (us : list (string * pc)) k0 nm0 p0 p' :
  (∀ k nm p r, us !! k = Some (nm, p) → pc_result p = Some r →
               ∃ w, r = (runTest E nm out w).1) →
  us !! k0 = Some (nm0, p0) →
  (∀ r, pc_result p' = Some r → ∃ w, r = (runTest E nm0 out w).1) →
  ∀ k nm p r, <[k0 := (nm0, p')]> us !! k = Some (nm, p) →
              pc_result p = Some r → ∃ w, r = (runTest E nm out w).1.
Proof.
  intros Hus Hk0 Hp' k nm p r Hk Hr.
  destruct (decide (k = k0)) as [->|Hne].
  - rewrite list_lookup_insert_eq in Hk by by eapply lookup_lt_Some.
    injection Hk as <- <-. by apply Hp'.
  - rewrite list_lookup_insert_ne in Hk by done. by eapply Hus.
Qed.

(** Every step keeps the invariant. *)
Lemma step_go_Inv k s s' : Inv s → step_go E cap N out k s = Some s' → Inv s'.
Proof.
  intros [Hn Hh Hc Hr Hp Hf Ho Hq] H. unfold step_go in H.
  destruct (units s !! k) as [[nm p]|] eqn:Hk; [| done].
  unfold holders in Hh.
  assert (∀ p', (<[k := (nm, p')]> (units s)).*1 = entries) as Hn'
    by (intros p'; by rewrite (names_insert _ _ _ _ _ Hk)).
  pose proof (λ p', countb_insert is_holding _ _ _ _ p' Hk) as Ha.
  pose proof (λ p', countb_insert has_sent _ _ _ _ p' Hk) as Hs.
  destruct p as [| |r|r|r].
  - (* the send on [throttle] *)
    destruct (Nat.ltb_spec (throttle s) cap); [| done].
    injection H as <-. specialize (Ha Acquired). specialize (Hs Acquired).
    split; unfold holders; cbn in *; [done | lia | lia | lia | done | | |].
    + by rewrite (delivered_insert_same _ _ _ _ Acquired Hk).
    + by rewrite (ran_insert_same _ _ _ _ Acquired Hk).
    + by apply (produced_insert _ _ _ _ _ Hq Hk).
  - (* the call of [runTest] *)
    destruct (runTest E nm out (os s)) as [r w] eqn:Hrun.
    injection H as <-.
    specialize (Ha (Returned r)). specialize (Hs (Returned r)).
    split; unfold holders; cbn in *; [done | lia | lia | lia | done | | |].
    + by rewrite (delivered_insert_same _ _ _ _ (Returned r) Hk).
    + destruct Ho as (evs & Ht & Hat & Hd).
      destruct (runTest_effect E nm out (os s)) as (evs' & Ht' & Hat' & Hd').
      rewrite Hrun in Ht', Hd'; cbn in Ht', Hd'.
      exists (evs ++ evs'). split; [| split].
      * by rewrite Ht', Ht, app_assoc.
      * unfold attempts in *. rewrite omap_app, Hat, Hat'.
        rewrite (ran_insert_new _ _ _ _ (Returned r) Hk) by done.
        rewrite fmap_cons. by rewrite <- Permutation_cons_append.
      * rewrite Hd', Hd. unfold made. rewrite omap_app, list_to_set_app_L.
        by rewrite (assoc_L _).
    + apply (produced_insert _ _ _ _ _ Hq Hk). intros r' [= <-].
      exists (os s). by rewrite Hrun.
  - (* the send on [results] *)
    destruct (Nat.ltb_spec (length (results s)) N); [| done].
    injection H as <-.
    specialize (Ha (Delivered r)). specialize (Hs (Delivered r)).
    split; unfold holders; cbn in *; [done | lia | lia | | done | | |].
    + rewrite length_app. cbn. lia.
    + rewrite (failures_perm _ _ (delivered_insert_new _ _ _ _ r Hk eq_refl)).
      rewrite failures_app, app_assoc, Hf.
      change (failures (r :: delivered (units s)))
        with (failures ([r] ++ delivered (units s))).
      rewrite failures_app. apply Permutation_app_comm.
    + by rewrite (ran_insert_same _ _ _ _ (Delivered r) Hk).
    + apply (produced_insert _ _ _ _ _ Hq Hk). intros r' [= <-].
      by apply (Hq k nm (Returned r)).
  - (* the deferred receive from [throttle] *)
    destruct (throttle s) as [|n] eqn:Hth; [done |].
    injection H as <-.
    specialize (Ha (Finished r)). specialize (Hs (Finished r)).
    split; unfold holders; cbn in *; [done | lia | lia | lia | done | | |].
    + by rewrite (delivered_insert_same _ _ _ _ (Finished r) Hk).
    + by rewrite (ran_insert_same _ _ _ _ (Finished r) Hk).
    + apply (produced_insert _ _ _ _ _ Hq Hk). intros r' [= <-].
      by apply (Hq k nm (Delivered r)).
  - done.
Qed.

Lemma step_main_Inv s s' : Inv s → step_main N s = Some s' → Inv s'.
Proof.
  intros [Hn Hh Hc Hr Hp Hf Ho Hq] H. unfold step_main in H.
  destruct (Nat.ltb_spec (i s) N); [| done].
  destruct (results s) as [|r rs] eqn:Hrs; [done |]. injection H as <-.
  split; cbn in *; [done | done | done | lia | | | done | done].
  - unfold progress_lines in *.
    destruct (err r); rewrite List.filter_app, length_app; cbn; lia.
  - rewrite <- Hf. destruct (err r); [| done].
    by rewrite <- app_assoc.
Qed.

Lemma step_Inv t s s' : Inv s → step t s = Some s' → Inv s'.
Proof. destruct t; [apply step_main_Inv | apply step_go_Inv]. Qed.

Lemma exec_app sched sched' s :
  exec (sched ++ sched') s = exec sched' (exec sched s).
Proof. apply foldl_app. Qed.

Lemma exec_Inv sched s : Inv s → Inv (exec sched s).
Proof.
  revert s. induction sched as [|t sched IH]; intros s HI; [done |].
  cbn. apply IH. destruct (step t s) as [s'|] eqn:Hs; [| done].
  by apply (step_Inv t s).
Qed.

(** Every step uses up one unit of fuel, so a run has at most
    [5 * N] steps. *)
Lemma step_fuel t s s' :
  step t s = Some s' → S (fuel entries s') = fuel entries s.
Proof.
  destruct t as [|k]; cbn; intros H.
  - unfold step_main in H.
    destruct (Nat.ltb_spec (i s) N); [| done].
    destruct (results s); [done |]. injection H as <-.
    unfold fuel; cbn. lia.
  - unfold step_go in H.
    destruct (units s !! k) as [[nm p]|] eqn:Hk; [| done].
    pose proof (λ p', weight_insert _ _ _ _ p' Hk) as Hw.
    destruct p as [| |r|r|r].
    + destruct (throttle s <? cap); [| done]. injection H as <-.
      specialize (Hw Acquired). unfold fuel; cbn in *. lia.
    + destruct (runTest E nm out (os s)) as [r w]. injection H as <-.
      specialize (Hw (Returned r)). unfold fuel; cbn in *. lia.
    + destruct (length (results s) <? N); [| done]. injection H as <-.
      specialize (Hw (Delivered r)). unfold fuel; cbn in *. lia.
    + destruct (throttle s); [done |]. injection H as <-.
      specialize (Hw (Finished r)). unfold fuel; cbn in *. lia.
    + done.
Qed.

Lemma Go_thread k u s : units s !! k = Some u → Go k ∈ threads s.
Proof.
  intros H. unfold threads. apply list_elem_of_further, list_elem_of_fmap.
  exists k. split; [done |]. apply elem_of_seq.
  apply lookup_lt_Some in H. lia.
Qed.

(** A goroutine that holds a slot is never blocked: [runTest] returns on
    both of its paths, [results] has room for every result, and [throttle]
    holds the element the goroutine put there. *)
Lemma holder_steps k nm p s :
  Inv s → units s !! k = Some (nm, p) → is_holding p = true →
  ∃ s', step_go E cap N out k s = Some s'.
Proof.
  intros HI Hk Hp. pose proof (Inv_length s HI) as Hlen.
  destruct HI as [Hn Hh Hc Hr _ _ _ _]. unfold step_go. rewrite Hk.
  destruct p as [| |r|r|r]; try done.
  - destruct (runTest E nm out (os s)). by eexists.
  - pose proof (countb_lt has_sent _ _ _ _ Hk eq_refl).
    destruct (Nat.ltb_spec (length (results s)) N); [by eexists | lia].
  - pose proof (countb_pos is_holding _ _ _ _ Hk eq_refl).
    unfold holders in Hh. destruct (throttle s); [lia | by eexists].
Qed.

(** With at least one slot, a run that has results left to receive can
    take a step. *)
Lemma can_step s :
  Inv s → 0 < cap → i s < N → ∃ t s', t ∈ threads s ∧ step t s = Some s'.
Proof.
  intros HI Hcap Hi. pose proof (Inv_length s HI) as Hlen.
  destruct (units_cases (units s))
    as [(k & nm & p & Hk & Hp) | [Hh0 [(k & nm & Hk) | Hs]]].
  - destruct (holder_steps k nm p s HI Hk Hp) as [s' Hs'].
    exists (Go k), s'. by split; [eapply Go_thread |].
  - destruct HI as [_ Hh _ _ _ _ _ _]. unfold holders in Hh.
    exists (Go k). cbn. unfold step_go. rewrite Hk.
    destruct (Nat.ltb_spec (throttle s) cap); [| lia].
    eexists. by split; [eapply Go_thread |].
  - destruct HI as [_ _ _ Hr _ _ _ _].
    exists Main. cbn. unfold step_main.
    destruct (Nat.ltb_spec (i s) N); [| lia].
    destruct (results s) as [|r rs]; [cbn in Hr; lia |].
    eexists. split; [apply list_elem_of_here | done].
Qed.

Lemma not_stuck s :
  Inv s → 0 < cap → i s < N → stuck E cap N out s = false.
Proof.
  intros HI Hcap Hi. destruct (can_step s HI Hcap Hi) as (t & s' & Ht & Hs).
  apply not_true_is_false. intros Hstuck. unfold stuck in Hstuck.
  rewrite forallb_forall in Hstuck.
  apply list_elem_of_In, Hstuck, bool_decide_eq_true in Ht. congruence.
Qed.

(** With at least one slot, some schedule lets [main] receive all
    results. *)
Lemma completes s : Inv s → 0 < cap → ∃ sched, i (exec sched s) = N.
Proof.
  intros HI Hcap. remember (fuel entries s) as n eqn:Hn.
  revert s HI Hn. induction n as [n IH] using lt_wf_ind. intros s HI Hn.
  pose proof (Inv_received s HI).
  destruct (decide (i s = N)) as [Heq|Hne]; [by exists [] |].
  destruct (can_step s HI Hcap) as (t & s' & _ & Hs); [lia |].
  pose proof (step_fuel t s s' Hs).
  destruct (IH (fuel entries s')) with (s := s') as [sched Hsched];
    [lia | by eapply step_Inv | done |].
  exists (t :: sched). cbn. by rewrite Hs.
Qed.

End SchedulerFacts.

(** ** The program as a whole *)

Section MainFacts.
Variable E : Env.
Implicit Types (jobs : Z) (out : string) (args entries : list string).
Implicit Types (sched : list tid) (w : OS) (s : State).

(** The summary file. *)
Local Abbreviation summary_file out := (filepath_Join E out "summary.txt").

(** The entries are the matches of the patterns one after the other:
    nothing is left out and nothing is merged. *)
Lemma globAll_matches args acc entries :
  globAll E args acc = inr entries →
  entries = acc ++ concat ((λ f, (filepath_Glob E f).1) <$> args).
Proof.
  revert acc. induction args as [|f args IH]; intros acc H; cbn in *.
  - injection H as <-. by rewrite app_nil_r.
  - destruct (filepath_Glob E f) as [es [e|]]; [done |].
    rewrite (IH _ H). cbn. by rewrite app_assoc.
Qed.

(** When [make] makes a channel, and when it does not. *)
Lemma make_chan_Some jobs cap :
  make_chan E jobs = Some cap ↔
  (0 ≤ jobs ≤ Z.of_N (chan_max E))%Z ∧ cap = Z.to_nat jobs.
Proof.
  unfold make_chan.
  destruct (Z.ltb_spec jobs 0), (Z.ltb_spec (Z.of_N (chan_max E)) jobs); cbn;
    (split; [intros [= <-] | intros [? ->]]); (done || lia).
Qed.

Lemma make_chan_None jobs :
  make_chan E jobs = None ↔ (jobs < 0 ∨ Z.of_N (chan_max E) < jobs)%Z.
Proof.
  unfold make_chan.
  destruct (Z.ltb_spec jobs 0), (Z.ltb_spec (Z.of_N (chan_max E)) jobs); cbn;
    (split; [intros ? | intros [?|?]]); (done || lia).
Qed.

(** The two ways in which lines 142-153 end.  A summary that cannot be
    written is left as it was, or made anew with the bytes that got
    through. *)
Lemma finish_cases out s :
  let f := summary_file out in
  let sorted := sort_Strings (failed s) in
  (∃ e w', WriteFile_err E (os s) f = Some e ∧
           finish E out s = Fatal (SummaryWriteError e) w' ∧
           trace w' = trace (os s) ++ [EvWriteFile f false] ∧
           (files w' = files (os s) ∨
            ∃ n, files w' = <[f := first_bytes n (summary_text E (os s) sorted)]>
                              (files (os s)))) ∨
  (WriteFile_err E (os s) f = None ∧
   finish E out s =
     Exit0 {| units := units s; throttle := throttle s;
              results := results s; i := i s; failed := sorted;
              stdout := stdout s ++
                [Newline; Report (length sorted) (elapsed_String E (os s))];
              os := {| files := <[f := summary_text E (os s) sorted]>
                                  (files (os s));
                       trace := trace (os s) ++ [EvWriteFile f true] |} |}).
Proof.
  intros f sorted. unfold finish, ioutil_WriteFile. fold f sorted.
  destruct (WriteFile_err E (os s) f) as [e|]; [left | right].
  - eexists e, _. split; [done |]. split; [done |]. cbn. split; [done |].
    destruct (WriteFile_written E (os s) f) as [n|]; [right; by exists n | by left].
  - split; [done |]. by rewrite <- app_assoc.
Qed.

(** Once the flags are in order, the patterns expand and the output
    directory exists, the outcome is that of the goroutines. *)
Lemma main_scheduled jobs out args entries sched w :
  out ≠ "" → args ≠ [] → globAll E args [] = inr entries →
  MkdirAll_err E w out = None → (0 ≤ jobs ≤ Z.of_N (chan_max E))%Z →
  let N := length entries in
  let s := exec E (Z.to_nat jobs) N out sched
             (init entries (emit (EvMkdirAll out) w)) in
  main E jobs out args sched w =
    if i s <? N
    then if stuck E (Z.to_nat jobs) N out s then Deadlock s else Running s
    else finish E out s.
Proof.
  intros Hout Hargs Hglob Hmk Hjobs N s. unfold main, os_MkdirAll.
  destruct (decide (out = "")); [done |].
  destruct (decide (length args = 0)) as [H0|_];
    [by apply length_zero_iff_nil in H0 |].
  rewrite Hglob, Hmk.
  by rewrite (proj2 (make_chan_Some jobs _) (conj Hjobs eq_refl)).
Qed.

(** A size that [make] refuses ends the process once the output directory
    is made. *)
Lemma main_no_chan jobs out args entries sched w :
  out ≠ "" → args ≠ [] → globAll E args [] = inr entries →
  MkdirAll_err E w out = None → make_chan E jobs = None →
  main E jobs out args sched w = Panic (emit (EvMkdirAll out) w).
Proof.
  intros Hout Hargs Hglob Hmk Hjobs. unfold main, os_MkdirAll.
  destruct (decide (out = "")); [done |].
  destruct (decide (length args = 0)) as [H0|_];
    [by apply length_zero_iff_nil in H0 |].
  by rewrite Hglob, Hmk, Hjobs.
Qed.

(** With at least one slot such a run is under way or has ended the loop
    with all results received: the goroutines never leave [main] waiting
    for ever. *)
Lemma main_cases jobs out args entries sched w :
  out ≠ "" → args ≠ [] → globAll E args [] = inr entries →
  MkdirAll_err E w out = None → (1 ≤ jobs ≤ Z.of_N (chan_max E))%Z →
  let N := length entries in
  let w1 := emit (EvMkdirAll out) w in
  let s := exec E (Z.to_nat jobs) N out sched (init entries w1) in
  Inv E (Z.to_nat jobs) out entries w1 s ∧
  ((i s < N ∧ main E jobs out args sched w = Running s) ∨
   (i s = N ∧ main E jobs out args sched w = finish E out s)).
Proof.
  intros Hout Hargs Hglob Hmk Hjobs N w1 s.
  assert (Inv E (Z.to_nat jobs) out entries w1 s) as HI
    by apply exec_Inv, Inv_init.
  split; [done |].
  rewrite (main_scheduled jobs out args entries sched w) by (done || lia).
  fold N w1 s. pose proof (Inv_received _ _ _ _ _ _ HI). fold N in H.
  destruct (Nat.ltb_spec (i s) N); [left | right; split; [lia | done]].
  split; [done |]. rewrite (not_stuck E _ out entries w1); [done.. | lia | done].
Qed.

(** What a run that ends with status 0 has gone through. *)
Lemma main_Exit0_inv jobs out args sched w s' :
  main E jobs out args sched w = Exit0 s' →
  ∃ entries,
    out ≠ "" ∧ args ≠ [] ∧ globAll E args [] = inr entries ∧
    MkdirAll_err E w out = None ∧ (0 ≤ jobs ≤ Z.of_N (chan_max E))%Z ∧
    let w1 := emit (EvMkdirAll out) w in
    let s := exec E (Z.to_nat jobs) (length entries) out sched
               (init entries w1) in
    Inv E (Z.to_nat jobs) out entries w1 s ∧
    i s = length entries ∧ finish E out s = Exit0 s'.
Proof.
  unfold main, os_MkdirAll. intros H.
  destruct (decide (out = "")); [done |].
  destruct (decide (length args = 0)); [done |].
  destruct (globAll E args []) as [e|entries] eqn:Hglob; [done |].
  destruct (MkdirAll_err E w out) eqn:Hmk; [done |].
  destruct (make_chan E jobs) as [cap|] eqn:Hcap; [| done].
  apply make_chan_Some in Hcap as [Hjobs ->].
  exists entries. split; [done |]. split; [by intros -> |].
  do 3 (split; [done |]).
  set (w1 := emit (EvMkdirAll out) w) in *.
  set (s := exec E _ _ _ _ _) in *.
  assert (Inv E (Z.to_nat jobs) out entries w1 s) as HI
    by apply exec_Inv, Inv_init.
  pose proof (Inv_received _ _ _ _ _ _ HI).
  destruct (Nat.ltb_spec (i s) (length entries)).
  - by destruct (stuck _ _ _ _ _).
  - split; [done |]. split; [lia | done].
Qed.

End MainFacts.

(** With at least one slot, every run can be continued to its end: no
    state that a schedule leads to is a dead end. *)
Lemma every_run_can_end (E : Env) (jobs : Z) (out : string)
    (args entries : list string) (sched : list tid) (w : OS) :
  out ≠ "" → args ≠ [] → globAll E args [] = inr entries →
  MkdirAll_err E w out = None → (1 ≤ jobs ≤ Z.of_N (chan_max E))%Z →
  ∃ sched', exit_status (main E jobs out args (sched ++ sched') w) ≠ None.
Proof.
  intros Hout Hargs Hglob Hmk Hjobs.
  set (w1 := emit (EvMkdirAll out) w).
  set (cap := Z.to_nat jobs).
  set (s := exec E cap (length entries) out sched (init entries w1)).
  assert (Inv E cap out entries w1 s) as HI by apply exec_Inv, Inv_init.
  destruct (completes E cap out entries w1 s HI) as [sched' Hs']; [lia |].
  exists sched'.
  destruct (main_cases E jobs out args entries (sched ++ sched') w)
    as [_ [[Hlt _] | [_ ->]]]; try done.
  { rewrite exec_app in Hlt. subst s cap w1. lia. }
  match goal with
  | |- context [finish E out ?s] =>
      by destruct (finish_cases E out s) as [(e & w' & _ & -> & _) | [_ ->]]
  end.
Qed.

(** With at least one slot, in a channel that the runtime makes, a run is
    under way, or has ended with status 0, or has ended because the summary
    could not be written: no test, and no log file that cannot be created,
    ends it. *)
Lemma main_outcomes (E : Env) (jobs : Z) (out : string)
    (args entries : list string) (sched : list tid) (w : OS) :
  out ≠ "" → args ≠ [] → globAll E args [] = inr entries →
  MkdirAll_err E w out = None → (1 ≤ jobs ≤ Z.of_N (chan_max E))%Z →
  match main E jobs out args sched w with
  | Running _ | Exit0 _ | Fatal (SummaryWriteError _) _ => True
  | _ => False
  end.
Proof.
  intros Hout Hargs Hglob Hmk Hjobs.
  destruct (main_cases E jobs out args entries sched w)
    as [_ [[_ ->] | [_ ->]]]; try done.
  match goal with
  | |- context [finish E out ?s] =>
      by destruct (finish_cases E out s) as [(e & w' & _ & -> & _) | [_ ->]]
  end.
Qed.

(** ** Giving the slot back *)

Section Release.
Variable E : Env.
Variables (cap : nat) (out : string) (entries : list string) (w0 : OS).

Local Abbreviation N := (length entries).
Local Abbreviation Inv := (Inv E cap out entries w0).
Local Abbreviation go := (step_go E cap N out).
Local Abbreviation run := (exec E cap N out).

(** One step of a goroutine that holds a slot: it moves on by one
    statement, and only the deferred receive changes [throttle]. *)
Lemma holder_step_spec k nm p s :
  Inv s → units s !! k = Some (nm, p) → is_holding p = true →
  ∃ s' p',
    go k s = Some s' ∧ Inv s' ∧
    units s' = <[k := (nm, p')]> (units s) ∧
    S (remaining p') = remaining p ∧
    throttle s = (match p with Delivered _ => 1 | _ => 0 end) + throttle s' ∧
    pc_result p' = match p with
                   | Acquired => Some (runTest E nm out (os s)).1
                   | _ => pc_result p
                   end.
Proof.
  intros HI Hk Hp. destruct (holder_steps E cap out entries w0 k nm p s HI Hk Hp)
    as [s' Hs'].
  pose proof (step_go_Inv E cap out entries w0 k s s' HI Hs') as HI'.
  exists s'. pose proof Hs' as Hstep.
  unfold step_go in Hs'. rewrite Hk in Hs'.
  destruct p as [| |r|r|r]; try done.
  - destruct (runTest E nm out (os s)) as [r w]. injection Hs' as <-.
    exists (Returned r). by cbn.
  - destruct (length (results s) <? N); [| done]. injection Hs' as <-.
    exists (Delivered r). by cbn.
  - destruct (throttle s) eqn:Hth; [done |]. injection Hs' as <-.
    exists (Finished r). by cbn.
Qed.

(** A goroutine that holds a slot gives it back by its own steps alone,
    whatever [runTest] returns, and whoever is waiting for a slot can then
    take it. *)
Lemma release_slot k nm p s :
  Inv s → units s !! k = Some (nm, p) → is_holding p = true →
  let s' := run (replicate (remaining p) (Go k)) s in
  ∃ r,
    units s' = <[k := (nm, Finished r)]> (units s) ∧
    S (throttle s') = throttle s ∧
    pc_result (Finished r) = match p with
                   | Acquired => Some (runTest E nm out (os s)).1
                   | _ => pc_result p
                   end.
Proof.
  intros HI Hk Hp.
  assert (∀ n s p, Inv s → units s !! k = Some (nm, p) →
            is_holding p = true → remaining p = n →
            ∃ r, units (run (replicate n (Go k)) s) =
                   <[k := (nm, Finished r)]> (units s) ∧
                 S (throttle (run (replicate n (Go k)) s)) = throttle s ∧
                 Some r = match p with
                          | Acquired => Some (runTest E nm out (os s)).1
                          | _ => pc_result p
                          end) as Hgen.
  { clear. induction n as [|n IH]; intros s p HI Hk Hp Hn.
    { by destruct p. }
    destruct (holder_step_spec k nm p s HI Hk Hp)
      as (s1 & p1 & Hs1 & HI1 & Hu1 & Hr1 & Ht1 & Hres).
    assert (units s1 !! k = Some (nm, p1)) as Hk1.
    { rewrite Hu1. apply list_lookup_insert_eq. by eapply lookup_lt_Some. }
    assert (run (replicate (S n) (Go k)) s = run (replicate n (Go k)) s1)
      as -> by (cbn; by rewrite Hs1).
    rewrite Hn in Hr1. injection Hr1 as Hr1.
    destruct n as [|n].
    - destruct p as [| |r|r|r]; cbn in Hn; try (done || lia).
      destruct p1 as [| |r1|r1|r1]; cbn in Hr1; try (done || lia).
      cbn in Ht1, Hres. injection Hres as Hres.
      exists r1. cbn. rewrite Hu1. split; [done |]. split; by f_equal.
    - destruct (IH s1 p1 HI1 Hk1) as (r & Hu & Ht & Hr); [| done |].
      { destruct p; cbn in Hn; try (done || lia);
          destruct p1; cbn in Hr1 |- *; (done || lia). }
      exists r. rewrite Hu, Hu1, list_insert_insert_eq. split; [done |].
      split; [destruct p; cbn in Hn, Ht1; (done || lia) |].
      rewrite Hr. destruct p as [| |r'|r'|r']; cbn in Hn; try (done || lia);
        destruct p1; cbn in Hr1, Hres; try (done || lia). }
  intros s'. destruct (Hgen (remaining p) s p HI Hk Hp eq_refl) as (r & ? & ? & ?).
  by exists r.
Qed.

End Release.

(** ** Claims about the scheduler *)

(** C3. In every state of a run the goroutines that hold a slot are as many
    as the elements of [throttle], hence at most [jobs].  A goroutine that
    holds a slot is never blocked, and its own remaining steps give the slot
    back on every path of [runTest], also when the log file cannot be
    created; whoever is waiting for a slot can then take one. *)
Theorem C3_worker_budget (E : Env) (jobs : Z) (cap : nat) (out : string)
    (entries : list string) (w0 : OS) (sched : list tid) :
  make_chan E jobs = Some cap →
  let N := length entries in
  let s := exec E cap N out sched (init entries w0) in
  holders s = throttle s ∧ (Z.of_nat (holders s) ≤ jobs)%Z ∧
  ∀ k nm p, units s !! k = Some (nm, p) → is_holding p = true →
    (∃ s1, step_go E cap N out k s = Some s1) ∧
    let s' := exec E cap N out (replicate (remaining p) (Go k)) s in
    ∃ r,
      units s' !! k = Some (nm, Finished r) ∧
      S (holders s') = holders s ∧
      (∀ e, p = Acquired →
            Create_err E (os s) (logfile E out nm) = Some e →
            r = {| name := ""; summary := "create error"; err := Some e |}) ∧
      ∀ j nm', units s' !! j = Some (nm', Pending) →
               ∃ s'', step_go E cap N out j s' = Some s''.
Proof.
  intros Hcap N s. apply make_chan_Some in Hcap as [Hjobs ->].
  set (cap := Z.to_nat jobs) in *.
  assert (Inv E cap out entries w0 s) as HI by apply exec_Inv, Inv_init.
  pose proof (inv_holders _ _ _ _ _ _ HI) as Hh.
  pose proof (inv_cap _ _ _ _ _ _ HI) as Hc.
  split; [done |]. split; [lia |].
  intros k nm p Hk Hp. split; [by eapply holder_steps |].
  intros s'.
  assert (Inv E cap out entries w0 s') as HI' by by apply exec_Inv.
  destruct (release_slot E cap out entries w0 k nm p s HI Hk Hp)
    as (r & Hu & Ht & Hr).
  fold N s' in Hu, Ht. exists r.
  pose proof (inv_holders _ _ _ _ _ _ HI') as Hh'.
  split; [| split; [lia | split]].
  - rewrite Hu. apply list_lookup_insert_eq. by eapply lookup_lt_Some.
  - intros e -> Hc'. injection Hr as ->.
    by rewrite (runTest_create_error E _ _ _ _ Hc').
  - intros j nm' Hj. unfold step_go. rewrite Hj.
    destruct (Nat.ltb_spec (throttle s') cap); [by eexists | lia].
Qed.

Lemma C3_witness :
  let s := exec demo 2 3 "out" [Go 2; Go 0] (init ["t1"; "t2"; "t3"] emptyOS) in
  make_chan demo 2 = Some 2 ∧
  units s !! 2 = Some ("t3", Acquired) ∧
  holders s = throttle s ∧ (Z.of_nat (holders s) ≤ 2)%Z ∧
  ∃ s1, step_go demo 2 3 "out" 2 s = Some s1.
Proof.
  intros s. split; [reflexivity |]. split; [reflexivity |].
  pose proof (C3_worker_budget demo 2 2 "out" ["t1"; "t2"; "t3"] emptyOS
                [Go 2; Go 0] eq_refl) as (Hh & Hle & Hrel).
  split; [exact Hh |]. split; [exact Hle |].
  exact (proj1 (Hrel 2 "t3" Acquired eq_refl eq_refl)).
Defined.

(** A run whose loop has ended has one result for each entry, and has asked
    for one log file for each entry. *)
Lemma loop_ended (E : Env) (cap : nat) (out : string) (entries : list string)
    (w0 : OS) (s : State) :
  Inv E cap out entries w0 s → i s = length entries →
  results s = [] ∧
  length (progress_lines (stdout s)) = length entries ∧
  failed s ≡ₚ failures (delivered (units s)) ∧
  (∀ k e, entries !! k = Some e →
     ∃ r w, (runTest E e out w).1 = r ∧
            (units s !! k = Some (e, Delivered r) ∨
             units s !! k = Some (e, Finished r))) ∧
  ∃ evs,
    trace (os s) = trace w0 ++ evs ∧
    attempts evs ≡ₚ logfile E out <$> entries ∧
    dom (files (os s)) = dom (files w0) ∪ list_to_set (made evs).
Proof.
  intros HI Hi. pose proof (Inv_length _ _ _ _ _ _ HI) as Hlen.
  destruct HI as [Hn Hh Hc Hr Hp Hf Ho Hq].
  pose proof (countb_le has_sent (units s)).
  assert (countb has_sent (units s) = length (units s)) as Hall by lia.
  assert (results s = []) as Hnil by (apply length_zero_iff_nil; lia).
  split; [done |]. split; [lia |].
  split; [by rewrite Hnil, app_nil_r in Hf |]. split.
  - intros k e Hk. rewrite <- Hn in Hk.
    apply list_lookup_fmap_Some in Hk as ([nm p] & -> & Hk). cbn.
    pose proof (countb_all _ _ _ _ _ Hall Hk) as Hs.
    destruct p as [| |r|r|r]; try done.
    + destruct (Hq k nm _ r Hk eq_refl) as [w ->]. eauto.
    + destruct (Hq k nm _ r Hk eq_refl) as [w ->]. eauto.
  - destruct Ho as (evs & Ht & Ha & Hd). exists evs.
    by rewrite (ran_all _ Hall), Hn in Ha.
Qed.

(** Only the call of [runTest] changes the machine. *)
Lemma step_os (E : Env) (cap N : nat) (out : string) t s s' :
  step E cap N out t s = Some s' →
  os s' = os s ∨ ∃ nm, os s' = (runTest E nm out (os s)).2.
Proof.
  destruct t as [|k]; cbn.
  - unfold step_main. destruct (i s <? N); [| done].
    destruct (results s); [done |]. intros [= <-]. by left.
  - unfold step_go. destruct (units s !! k) as [[nm [| |r|r|r]]|]; try done.
    + destruct (throttle s <? cap); [| done]. intros [= <-]. by left.
    + destruct (runTest E nm out (os s)) as [r w] eqn:Hr. intros [= <-].
      right. exists nm. by rewrite Hr.
    + destruct (length (results s) <? N); [| done]. intros [= <-]. by left.
    + destruct (throttle s); [done |]. intros [= <-]. by left.
Qed.

(** A path at which the run has created no file holds what it held. *)
Lemma exec_untouched (E : Env) (cap N : nat) (out : string) (sched : list tid)
    (s : State) :
  ∃ evs,
    trace (os (exec E cap N out sched s)) = trace (os s) ++ evs ∧
    ∀ g, g ∉ made evs →
         files (os (exec E cap N out sched s)) !! g = files (os s) !! g.
Proof.
  revert s. induction sched as [|t sched IH]; intros s.
  { exists []. by rewrite app_nil_r. }
  assert (exec E cap N out (t :: sched) s =
          exec E cap N out sched (default s (step E cap N out t s))) as ->
    by reflexivity.
  destruct (step E cap N out t s) as [s'|] eqn:Hs; [| apply IH].
  change (default s (Some s')) with s'.
  destruct (IH s') as (evs & Ht & Hf).
  destruct (step_os E cap N out t s s' Hs) as [Ho | [nm Ho]].
  - exists evs. by rewrite <- Ho.
  - destruct (runTest_untouched E nm out (os s)) as (evs1 & Ht1 & Hf1).
    rewrite <- Ho in Ht1, Hf1. exists (evs1 ++ evs). split.
    + by rewrite Ht, Ht1, app_assoc.
    + intros g Hg. unfold made in Hg. rewrite omap_app in Hg.
      apply not_elem_of_app in Hg as [Hg1 Hg2].
      by rewrite (Hf g Hg2), (Hf1 g Hg1).
Qed.

(** C2, as the specification states it, fails on four counts.  Two
    submissions of the same identifier give two results and one log file;
    a log file that cannot be created gives a result and no log file; with
    [--jobs 0] no goroutine ever gets a slot, so that no result is produced
    at all; and with a [--jobs] that is too large for a channel the process
    ends before any goroutine is started. *)
Lemma C2_counterexample :
  globAll demo ["t1"; "t1*"] [] = inr ["t1"; "t1"] ∧
  match main demo 2 "out" ["t1"; "t1*"] (round_robin 4 [Go 0; Go 1; Main])
             emptyOS with
  | Exit0 s =>
      (units s).*1 = ["t1"; "t1"] ∧ i s = 2 ∧
      (map_to_list (files (os s))).*1 = ["out/summary.txt"; "out/t1.log"]
  | _ => False
  end ∧
  match main demo 2 "out" ["t*"] demo_schedule emptyOS with
  | Exit0 s =>
      (units s).*1 = ["t1"; "t2"; "t3"] ∧ i s = 3 ∧
      (map_to_list (files (os s))).*1 =
        ["out/summary.txt"; "out/t1.log"; "out/t2.log"]
  | _ => False
  end ∧
  stuck demo 0 1 "out" (init ["t1"] (emit (EvMkdirAll "out") emptyOS)) = true ∧
  match main demo 0 "out" ["t1"] (round_robin 4 [Go 0; Main]) emptyOS with
  | Deadlock s => i s = 0 ∧ files (os s) = ∅
  | _ => False
  end ∧
  main demo (2 ^ 46) "out" ["t1"] (round_robin 4 [Go 0; Main]) emptyOS =
    Panic (emit (EvMkdirAll "out") emptyOS).
Proof. by vm_compute. Qed.

(** C2, amended. For a concurrency count of at least 1 and at most the
    largest size of a channel that the runtime makes, every run over [N]
    submitted identifiers, duplicates included, can run to the end of the
    loop of [main]; when it has, [main] has received [N] results, each
    goroutine has delivered the one result that [runTest] returned for its
    identifier, and [os.Create] has been called [N] times, once on the log
    file of each submission.  Of the files that the program writes, those
    that exist then are the files that were there before the run and the
    log files whose creation succeeded; a path at which no creation
    succeeded holds what it held before the run, so that a log that an
    earlier run left there stays. *)
Theorem C2_results_and_log_attempts (E : Env) (jobs : Z) (out : string)
    (args entries : list string) (sched : list tid) (w : OS) :
  out ≠ "" → args ≠ [] → globAll E args [] = inr entries →
  MkdirAll_err E w out = None → (1 ≤ jobs ≤ Z.of_N (chan_max E))%Z →
  let N := length entries in
  let w1 := emit (EvMkdirAll out) w in
  entries = concat ((λ f, (filepath_Glob E f).1) <$> args) ∧
  (∃ sched', exit_status (main E jobs out args (sched ++ sched') w) ≠ None) ∧
  (exit_status (main E jobs out args sched w) ≠ None →
   ∃ s, main E jobs out args sched w = finish E out s ∧
     i s = N ∧ results s = [] ∧
     length (progress_lines (stdout s)) = N ∧
     failed s ≡ₚ failures (delivered (units s)) ∧
     (∀ k e, entries !! k = Some e →
        ∃ r w', (runTest E e out w').1 = r ∧
                (units s !! k = Some (e, Delivered r) ∨
                 units s !! k = Some (e, Finished r))) ∧
     ∃ evs,
       trace (os s) = trace w1 ++ evs ∧
       attempts evs ≡ₚ logfile E out <$> entries ∧
       dom (files (os s)) = dom (files w) ∪ list_to_set (made evs) ∧
       ∀ g, g ∉ made evs → files (os s) !! g = files w !! g).
Proof.
  intros Hout Hargs Hglob Hmk Hjobs N w1.
  split; [by apply (globAll_matches E args []) |]. split.
  - by apply (every_run_can_end E jobs out args entries sched w).
  - intros Hend.
    destruct (main_cases E jobs out args entries sched w)
      as [HI [[_ Hrun] | [Hi Hfin]]]; try done.
    { by rewrite Hrun in Hend. }
    fold N w1 in HI, Hi, Hfin.
    eexists. split; [exact Hfin |]. split; [done |].
    destruct (loop_ended E (Z.to_nat jobs) out entries w1 _ HI Hi)
      as (Hres & Hprog & Hfailed & Hunits & evs & Ht & Ha & Hd).
    do 4 (split; [done |]). exists evs. do 3 (split; [done |]).
    destruct (exec_untouched E (Z.to_nat jobs) N out sched (init entries w1))
      as (evs' & Ht' & Hf').
    rewrite Ht in Ht'. apply app_inv_head in Ht'. by subst evs'.
Qed.

Lemma C2_witness :
  "out" ≠ "" ∧ ["t*"] ≠ [] ∧
  globAll demo ["t*"] [] = inr ["t1"; "t2"; "t3"] ∧
  (1 ≤ 2 ≤ Z.of_N (chan_max demo))%Z ∧
  ∃ sched',
    exit_status (main demo 2 "out" ["t*"] ([Go 0; Go 1] ++ sched') emptyOS)
      ≠ None.
Proof.
  split; [done |]. split; [done |]. split; [reflexivity |].
  split; [cbn; lia |].
  refine (proj1 (proj2 (C2_results_and_log_attempts demo 2 "out" ["t*"]
                          ["t1"; "t2"; "t3"] [Go 0; Go 1] emptyOS
                          _ _ eq_refl eq_refl _)));
    (done || (cbn; lia)).
Defined.

(** C5, as the specification states it, fails: a pattern that matches
    nothing gives zero identifiers, and the run is not aborted.  It starts
    no goroutine, writes the summary file and ends with status 0. *)
Lemma C5_counterexample :
  globAll demo ["nomatch*"] [] = inr [] ∧
  exit_status (main demo 2 "out" ["nomatch*"] [] emptyOS) = Some 0%Z ∧
  match main demo 2 "out" ["nomatch*"] [] emptyOS with
  | Exit0 s =>
      units s = [] ∧
      stdout s = [Newline; Report 0 "1.5s"] ∧
      trace (os s) = [EvMkdirAll "out"; EvWriteFile "out/summary.txt" true] ∧
      is_Some (files (os s) !! "out/summary.txt")
  | _ => False
  end.
Proof. vm_compute. repeat split; eauto. Qed.

(** C5, amended. When no glob argument is given, the run is a configuration
    error: it aborts before anything is scheduled and leaves the machine as
    it was, so that there are no results and no summary.  When the patterns
    that are given match nothing, the run is not taken for a configuration
    error.  Once the output directory is made, a [--jobs] that the runtime
    refuses as the size of a channel (a negative one, or one above the
    largest size it makes) ends the process in a panic; with any other
    [--jobs] the run starts no goroutine, prints no progress line and
    writes the summary file with an empty list of failures: it ends with
    status 0 when the file is written, and with the error of the write
    otherwise. *)
Theorem C5_no_identifiers (E : Env) (jobs : Z) (out : string)
    (args : list string) (sched : list tid) (w : OS) :
  (args = [] →
   ∃ c, main E jobs out args sched w = Fatal c w ∧
        (c = NoOutdir ∨ c = NoGlob)) ∧
  (out ≠ "" → args ≠ [] → globAll E args [] = inr [] →
   MkdirAll_err E w out = None →
   let w1 := emit (EvMkdirAll out) w in
   let f := filepath_Join E out "summary.txt" in
   ((jobs < 0 ∨ Z.of_N (chan_max E) < jobs)%Z →
    main E jobs out args sched w = Panic w1) ∧
   ((0 ≤ jobs ≤ Z.of_N (chan_max E))%Z →
    match WriteFile_err E w1 f with
    | Some e =>
        ∃ w', main E jobs out args sched w = Fatal (SummaryWriteError e) w' ∧
              trace w' = trace w ++ [EvMkdirAll out; EvWriteFile f false]
    | None =>
        ∃ s, main E jobs out args sched w = Exit0 s ∧
             units s = [] ∧ i s = 0 ∧ failed s = [] ∧
             stdout s = [Newline; Report 0 (elapsed_String E w1)] ∧
             files (os s) = <[f := summary_text E w1 []]> (files w) ∧
             trace (os s) = trace w ++ [EvMkdirAll out; EvWriteFile f true]
    end)).
Proof.
  split.
  - intros ->. unfold main.
    destruct (decide (out = "")); [by exists NoOutdir; auto |].
    exists NoGlob. auto.
  - intros Hout Hargs Hglob Hmk w1 f. split.
    { intros Hjobs. apply (main_no_chan E jobs out args []); try done.
      by apply make_chan_None. }
    intros Hjobs.
    rewrite (main_scheduled E jobs out args [] sched w) by done.
    assert (∀ cap, exec E cap 0 out sched (init [] w1) = init [] w1) as Hex.
    { intros cap. induction sched as [|[|k] sched' IH]; [done | done |].
      cbn. apply IH. }
    fold w1. rewrite Hex. cbn [i init length Nat.ltb Nat.leb].
    destruct (finish_cases E out (init [] w1))
      as [(e & w' & He & -> & Ht & _) | [He ->]];
      cbn in He; fold f in He; rewrite He.
    + exists w'. split; [done |]. rewrite Ht. cbn. by rewrite <- app_assoc.
    + eexists. split; [done |]. cbn. fold f. by rewrite <- app_assoc.
Qed.

Lemma C5_witness :
  (0 ≤ 2 ≤ Z.of_N (chan_max demo))%Z ∧
  ∃ s, main demo 2 "out" ["nomatch*"] [Main] emptyOS = Exit0 s ∧
       units s = [] ∧ failed s = [] ∧
       stdout s = [Newline; Report 0 "1.5s"].
Proof.
  assert (0 ≤ 2 ≤ Z.of_N (chan_max demo))%Z as Hjobs by (cbn; lia).
  split; [exact Hjobs |].
  pose proof (proj2 (proj2 (C5_no_identifiers demo 2 "out" ["nomatch*"] [Main]
                              emptyOS)
                      ltac:(done) ltac:(done) eq_refl eq_refl) Hjobs) as H.
  destruct H as (s & Hs & Hu & _ & Hf & Ho & _).
  exists s. split; [exact Hs |]. split; [exact Hu |]. split; [exact Hf |].
  exact Ho.
Defined.

(** C6, as the specification states it, fails: the cause that the result
    carries in [err] is the error of [os.Create], and the fixed text
    ["create error"] is its summary. *)
Lemma C6_counterexample :
  Create_err demo emptyOS (logfile demo "out" "t3") =
    Some "open out/t3.log: permission denied" ∧
  err (runTest demo "t3" "out" emptyOS).1 =
    Some "open out/t3.log: permission denied" ∧
  err (runTest demo "t3" "out" emptyOS).1 ≠ Some "create error".
Proof. by vm_compute. Qed.

(** C6, amended. For every test whose log file cannot be created, [runTest]
    returns a result that has failed with the error of [os.Create] as its
    cause and the fixed text ["create error"] as its summary; no process is
    started and no file is touched.  The goroutine goes on as after any
    other test; and with a concurrency count of at least 1 and at most the
    largest size of a channel that the runtime makes, no run ends for
    another reason than the end of its loop, whatever log files cannot be
    created. *)
Theorem C6_create_error (E : Env) (name outdir e : string) (w : OS) :
  Create_err E w (logfile E outdir name) = Some e →
  let '(r, w') := runTest E name outdir w in
  err r = Some e ∧ summary r = "create error" ∧
  files w' = files w ∧
  trace w' = trace w ++ [EvCreate (logfile E outdir name) false] ∧
  started (drop (length (trace w)) (trace w')) = [] ∧
  (∀ cap N k s, units s !! k = Some (name, Acquired) → os s = w →
     ∃ s', step_go E cap N outdir k s = Some s' ∧
           units s' = <[k := (name, Returned r)]> (units s) ∧
           throttle s' = throttle s ∧ results s' = results s) ∧
  (∀ jobs args entries sched w0,
     outdir ≠ "" → args ≠ [] → globAll E args [] = inr entries →
     MkdirAll_err E w0 outdir = None →
     (1 ≤ jobs ≤ Z.of_N (chan_max E))%Z →
     match main E jobs outdir args sched w0 with
     | Running _ | Exit0 _ | Fatal (SummaryWriteError _) _ => True
     | _ => False
     end).
Proof.
  intros Hc. pose proof (runTest_create_error E _ _ _ _ Hc) as Hrun.
  rewrite Hrun. cbn. split; [done |]. split; [done |]. split; [done |].
  split; [done |]. split; [| split].
  - by rewrite drop_app_length.
  - intros cap N k s Hk <-. unfold step_go. rewrite Hk, Hrun. by eexists.
  - intros jobs args entries sched w0. apply main_outcomes.
Qed.

Lemma C6_witness :
  Create_err demo emptyOS (logfile demo "out" "t3") =
    Some "open out/t3.log: permission denied" ∧
  err (runTest demo "t3" "out" emptyOS).1 =
    Some "open out/t3.log: permission denied" ∧
  summary (runTest demo "t3" "out" emptyOS).1 = "create error" ∧
  (1 ≤ 2 ≤ Z.of_N (chan_max demo))%Z ∧
  match main demo 2 "out" ["t*"] demo_schedule emptyOS with
  | Running _ | Exit0 _ | Fatal (SummaryWriteError _) _ => True
  | _ => False
  end.
Proof.
  split; [reflexivity |].
  pose proof (C6_create_error demo "t3" "out"
                "open out/t3.log: permission denied" emptyOS eq_refl) as H.
  destruct (runTest demo "t3" "out" emptyOS) as [r w'].
  destruct H as (He & Hs & _ & _ & _ & _ & Hmain).
  split; [exact He |]. split; [exact Hs |].
  assert (1 ≤ 2 ≤ Z.of_N (chan_max demo))%Z as Hjobs by (cbn; lia).
  split; [exact Hjobs |].
  exact (Hmain 2%Z ["t*"] ["t1"; "t2"; "t3"] demo_schedule emptyOS
           ltac:(done) ltac:(done) eq_refl eq_refl Hjobs).
Defined.

(** ** Claims about the end of the run *)

(** The model of [sort.Strings] does not depend on the sorting algorithm:
    a slice has one ascending arrangement. *)
Lemma sort_Strings_sorted l : Sorted String.le (sort_Strings l).
Proof. apply Sorted_merge_sort, _. Qed.

Lemma sort_Strings_perm l : sort_Strings l ≡ₚ l.
Proof. apply merge_sort_Permutation. Qed.

Lemma sort_Strings_unique l l' :
  Sorted String.le l' → l' ≡ₚ l → l' = sort_Strings l.
Proof.
  intros Hs Hp. apply (Sorted_unique String.le); [done | |].
  - apply sort_Strings_sorted.
  - by rewrite Hp, sort_Strings_perm.
Qed.

(** C8, as the specification states it, fails: a negative [--jobs] makes
    [make] panic, so does a [--jobs] that is too large for a channel, and
    [--jobs 0] leaves all goroutines asleep; all three end the process with
    status 2 although the flags are given, the patterns expand, the
    directory is made and no summary was to be written. *)
Lemma C8_counterexample :
  "out" ≠ "" ∧ ["t*"] ≠ [] ∧
  globAll demo ["t*"] [] = inr ["t1"; "t2"; "t3"] ∧
  MkdirAll_err demo emptyOS "out" = None ∧
  main demo (-1) "out" ["t*"] [] emptyOS = Panic (emit (EvMkdirAll "out") emptyOS) ∧
  exit_status (main demo (-1) "out" ["t*"] [] emptyOS) = Some 2%Z ∧
  exit_status (main demo 0 "out" ["t*"]
                 (round_robin 6 [Go 0; Go 1; Go 2; Main]) emptyOS) = Some 2%Z ∧
  main demo (2 ^ 46) "out" ["t*"] [] emptyOS =
    Panic (emit (EvMkdirAll "out") emptyOS) ∧
  exit_status (main demo (2 ^ 46) "out" ["t*"] [] emptyOS) = Some 2%Z.
Proof. by vm_compute. Qed.

(** C8, amended. For a concurrency count of at least 1 and at most the
    largest size of a channel that the runtime makes: a run ends with
    status 0 whatever tests have failed, and with another status only for
    a missing [--outdir], a missing glob argument, a pattern that [Glob]
    rejects, a directory that cannot be made, or a summary that cannot be
    written; each of the first four does end it with status 1, and when
    none of them occurs every run can be continued to its end. *)
Theorem C8_exit_status (E : Env) (jobs : Z) (out : string)
    (args : list string) (sched : list tid) (w : OS) :
  (1 ≤ jobs ≤ Z.of_N (chan_max E))%Z →
  let config_error :=
    out = "" ∨ args = [] ∨ (∃ e, globAll E args [] = inl e) ∨
    (∃ e, MkdirAll_err E w out = Some e) in
  (∀ c, exit_status (main E jobs out args sched w) = Some c →
     (c = 0%Z ∧ ¬ config_error ∧
      ∃ s, main E jobs out args sched w = Exit0 s) ∨
     (c = 1%Z ∧
      (config_error ∨
       ∃ e s, main E jobs out args sched w = finish E out s ∧
              WriteFile_err E (os s) (filepath_Join E out "summary.txt")
                = Some e))) ∧
  (config_error → exit_status (main E jobs out args sched w) = Some 1%Z) ∧
  (¬ config_error →
   ∃ sched', exit_status (main E jobs out args (sched ++ sched') w) ≠ None).
Proof.
  intros Hjobs config_error.
  destruct (decide (out = "")) as [Hout|Hout].
  { assert (config_error) by by left.
    assert (main E jobs out args sched w = Fatal NoOutdir w) as ->.
    { unfold main. by destruct (decide (out = "")). }
    split; [intros c [= <-]; right; by split; [| left] |]. by split. }
  destruct (decide (args = [])) as [Hargs|Hargs].
  { assert (config_error) by (right; by left).
    assert (main E jobs out args sched w = Fatal NoGlob w) as ->.
    { unfold main. destruct (decide (out = "")); [done |]. by rewrite Hargs. }
    split; [intros c [= <-]; right; by split; [| left] |]. by split. }
  destruct (globAll E args []) as [e|entries] eqn:Hglob.
  { assert (config_error) by (right; right; left; by exists e).
    assert (main E jobs out args sched w = Fatal (GlobError e) w) as ->.
    { unfold main. destruct (decide (out = "")); [done |].
      destruct (decide (length args = 0)) as [H0|_];
        [by apply length_zero_iff_nil in H0 |].
      by rewrite Hglob. }
    split; [intros c [= <-]; right; by split; [| left] |]. by split. }
  destruct (MkdirAll_err E w out) as [e|] eqn:Hmk.
  { assert (config_error) by (right; right; right; by exists e).
    assert (main E jobs out args sched w =
            Fatal (MkdirError e) (emit (EvMkdirAll out) w)) as ->.
    { unfold main, os_MkdirAll. destruct (decide (out = "")); [done |].
      destruct (decide (length args = 0)) as [H0|_];
        [by apply length_zero_iff_nil in H0 |].
      by rewrite Hglob, Hmk. }
    split; [intros c [= <-]; right; by split; [| left] |]. by split. }
  assert (¬ config_error) as Hok.
  { intros [? | [? | [[e ?] | [e ?]]]]; done. }
  split; [| split; [done |]].
  - intros c Hc.
    destruct (main_cases E jobs out args entries sched w)
      as [_ [[_ Hrun] | [_ Hfin]]]; try done.
    { by rewrite Hrun in Hc. }
    rewrite Hfin in Hc |- *.
    match goal with
    | |- context [finish E out ?s] =>
        destruct (finish_cases E out s) as [(e & w' & He & Hf & _) | [_ Hf]]
    end; rewrite Hf in Hc |- *; injection Hc as <-.
    + right. split; [done |]. right. eexists e, _. by rewrite Hf.
    + left. split; [done |]. split; [done |]. by eexists.
  - intros _. by apply (every_run_can_end E jobs out args entries sched w).
Qed.

Lemma C8_witness :
  (1 ≤ 2 ≤ Z.of_N (chan_max demo))%Z ∧ failed demo_final = [""; "t2"] ∧
  ∃ s, main demo 2 "out" ["t*"] demo_schedule emptyOS = Exit0 s.
Proof.
  assert (1 ≤ 2 ≤ Z.of_N (chan_max demo))%Z as H12 by (cbn; lia).
  split; [exact H12 |]. split; [reflexivity |].
  destruct (proj1 (C8_exit_status demo 2 "out" ["t*"] demo_schedule emptyOS
                     H12) 0%Z) as [(_ & _ & s & Hs) | (Hc & _)].
  - vm_compute. reflexivity.
  - exists s. exact Hs.
  - discriminate Hc.
Defined.

(** What [main] does after the loop (lines 144-151): a run that ends with
    status 0 has received all [N] results, one from the [runTest] of each
    entry, has gathered in [failed] the names that the failed results
    carry, has sorted them in ascending byte order, and has written the
    file [summary.txt] of the output directory: the arguments of the
    invocation, the time and the elapsed time in two header lines, then
    the sorted names, one per line. *)
Lemma summary_file_written (E : Env) (jobs : Z) (out : string)
    (args : list string) (sched : list tid) (w : OS) (s' : State) :
  main E jobs out args sched w = Exit0 s' →
  ∃ entries s,
    globAll E args [] = inr entries ∧
    s = exec E (Z.to_nat jobs) (length entries) out sched
          (init entries (emit (EvMkdirAll out) w)) ∧
    i s = length entries ∧
    (∀ k e, entries !! k = Some e →
       ∃ r w', (runTest E e out w').1 = r ∧
               (units s !! k = Some (e, Delivered r) ∨
                units s !! k = Some (e, Finished r))) ∧
    failed s ≡ₚ failures (delivered (units s)) ∧
    failed s' = sort_Strings (failed s) ∧
    Sorted String.le (failed s') ∧ failed s' ≡ₚ failed s ∧
    files (os s') !! filepath_Join E out "summary.txt" =
      Some ("# run " +:+ fmt_Strings (os_Args E) +:+ nl +:+
            "# on " +:+ now_RFC3339 E (os s) +:+
            ", elapsed " +:+ elapsed_String E (os s) +:+ ":" +:+ nl +:+
            strings_Join (failed s') nl) ∧
    trace (os s') =
      trace (os s) ++ [EvWriteFile (filepath_Join E out "summary.txt") true].
Proof.
  intros H. apply main_Exit0_inv in H
    as (entries & _ & _ & Hglob & _ & _ & HI & Hi & Hfin).
  eexists entries, _. split; [done |]. split; [done |]. split; [done |].
  destruct (loop_ended E _ out entries _ _ HI Hi)
    as (_ & _ & Hfailed & Hunits & _).
  split; [done |]. split; [done |].
  match type of Hfin with
  | finish E out ?s = _ =>
      destruct (finish_cases E out s) as [(e & w' & _ & Hf & _) | [_ Hf]]
  end; rewrite Hf in Hfin; [done |]. injection Hfin as <-. cbn.
  split; [done |]. split; [apply sort_Strings_sorted |].
  split; [apply sort_Strings_perm |]. split; [| done].
  by rewrite lookup_insert_eq.
Qed.

(** C9. [main] sorts [failed] and writes the summary file with the header
    lines that the claim names, but the names in the file are those that
    the results carry, and a result of the create-error path of [runTest]
    carries none (lines 52-55).  In the run of the three scripts the test
    [t3] has failed, and the summary file has an empty line where [t3]
    should be: the failed identifiers are not all listed. *)
Theorem C9_summary_misses_identifier :
  main demo 2 "out" ["t*"] demo_schedule emptyOS = Exit0 demo_final ∧
  units demo_final !! 2 =
    Some ("t3", Finished {| name := ""; summary := "create error";
                            err := Some "open out/t3.log: permission denied" |}) ∧
  failed demo_final = [""; "t2"] ∧
  ("t3" ∉ failed demo_final) ∧
  files (os demo_final) !! "out/summary.txt" =
    Some ("# run [rungittest --outdir out t*]" +:+ nl +:+
          "# on 2009-11-10T23:00:00Z, elapsed 1.5s:" +:+ nl +:+
          "" +:+ nl +:+ "t2") ∧
  ∃ text, files (os demo_final) !! "out/summary.txt" = Some text ∧
          bytes_Split text LF =
            ["# run [rungittest --outdir out t*]";
             "# on 2009-11-10T23:00:00Z, elapsed 1.5s:"; ""; "t2"].
Proof.
  split; [vm_compute; reflexivity |]. split; [vm_compute; reflexivity |].
  split; [vm_compute; reflexivity |].
  split; [apply (bool_decide_unpack _); vm_compute; exact I |].
  split; [vm_compute; reflexivity |].
  eexists. split; vm_compute; reflexivity.
Qed.

(** * Further properties *)

(** ** Splitting and joining *)

Lemma has_byte_app c a b : has_byte c (a +:+ b) = has_byte c a || has_byte c b.
Proof.
  induction a as [|x a IH]; [done |].
  rewrite append_cons. cbn. by rewrite IH, orb_assoc.
Qed.

Lemma bytes_Split_cons_ne c s sep :
  Ascii.eqb c sep = false →
  bytes_Split (String c s) sep =
    match bytes_Split s sep with
    | l :: ls => String c l :: ls
    | [] => [String c ""]
    end.
Proof. intros H. cbn. by rewrite H. Qed.

(** A separator in the middle splits the pieces of what is before it from
    the pieces of what is after it. *)
Lemma bytes_Split_app a b sep :
  bytes_Split (a +:+ String sep b) sep = bytes_Split a sep ++ bytes_Split b sep.
Proof.
  induction a as [|c a IH].
  - rewrite append_nil_l. cbn. by rewrite Ascii.eqb_refl.
  - rewrite append_cons. cbn. destruct (Ascii.eqb c sep).
    + by rewrite IH.
    + rewrite IH. pose proof (bytes_Split_length_pos a sep).
      by destruct (bytes_Split a sep); [cbn in *; lia |].
Qed.

Lemma bytes_Split_none s sep : has_byte sep s = false → bytes_Split s sep = [s].
Proof.
  induction s as [|c s IH]; [done |]. cbn.
  intros [Hc Hs]%orb_false_elim. by rewrite Hc, (IH Hs).
Qed.

Lemma bytes_Split_pieces s sep :
  Forall (λ x, has_byte sep x = false) (bytes_Split s sep).
Proof.
  induction s as [|c s IH]; cbn; [by repeat constructor |].
  destruct (Ascii.eqb c sep) eqn:Hc; [by constructor |].
  destruct (bytes_Split s sep) as [|l ls].
  { repeat constructor. cbn. by rewrite Hc. }
  apply Forall_cons in IH as [Hl Hls]. constructor; [| done].
  cbn. by rewrite Hc, Hl.
Qed.

Lemma strings_Join_cons e es sep :
  es ≠ [] → strings_Join (e :: es) sep = e +:+ sep +:+ strings_Join es sep.
Proof. by destruct es. Qed.

Lemma bytes_Split_Join l sep :
  l ≠ [] → Forall (λ x, has_byte sep x = false) l →
  bytes_Split (strings_Join l (String sep "")) sep = l.
Proof.
  induction l as [|e l IH]; [done |]. intros _ [He Hl]%Forall_cons.
  destruct l as [|e' l]; [by apply bytes_Split_none |].
  rewrite strings_Join_cons by done.
  rewrite append_cons, append_nil_l, bytes_Split_app, IH by done.
  by rewrite bytes_Split_none.
Qed.

Lemma strings_Join_Split s sep :
  strings_Join (bytes_Split s sep) (String sep "") = s.
Proof.
  induction s as [|c s IH]; [done |]. cbn.
  pose proof (bytes_Split_length_pos s sep).
  destruct (Ascii.eqb_spec c sep) as [->|Hne].
  - rewrite strings_Join_cons by (destruct (bytes_Split s sep); cbn in *; (done || lia)).
    by rewrite IH.
  - destruct (bytes_Split s sep) as [|l ls]; [cbn in *; lia |].
    destruct ls as [|l' ls]; cbn in *; [congruence |].
    rewrite append_cons. congruence.
Qed.

(** The summary body is the first of the last three pieces. *)
Lemma summaryBody_last_three out pre x y z :
  bytes_Split out LF = pre ++ [x; y; z] → summaryBody out = x.
Proof.
  intros H. unfold summaryBody. rewrite H, length_app. cbn [length].
  destruct (Nat.leb_spec 3 (length pre + 3)); [| lia].
  replace (length pre + 3 - 3) with (length pre) by lia.
  by rewrite drop_app_length.
Qed.

Lemma summaryBody_one_line out : has_byte LF (summaryBody out) = false.
Proof.
  rewrite summaryBody_lookup. cbv zeta.
  destruct (3 <=? length (bytes_Split out LF)); [| done].
  destruct (bytes_Split out LF !! (length (bytes_Split out LF) - 3))
    as [x|] eqn:Hx; [| done].
  cbn. pose proof (bytes_Split_pieces out LF) as HF.
  by apply (proj1 (Forall_lookup _ _) HF _ _ Hx).
Qed.

(** ** More about the executor *)

(** X1. The summary of a result is one line: it holds no line feed, on
    either path of [runTest] and in both variants. *)
Theorem X1_summary_one_line (E : Env) (name outdir : string) (w : OS) :
  has_byte LF (summary (runTest E name outdir w).1) = false ∧
  has_byte LF (summary (V2.runTest E name outdir w).1) = false.
Proof.
  destruct (Create_err E w (logfile E outdir name)) as [e|] eqn:Hc.
  - by rewrite (runTest_create_error E _ _ _ _ Hc),
      (V2_runTest_create_error E _ _ _ _ Hc).
  - rewrite (runTest_created E _ _ _ Hc), (V2_runTest_created E _ _ _ Hc).
    cbn [fst summary]. unfold prefixed.
    destruct (p_err _); by rewrite has_byte_app, summaryBody_one_line.
Qed.

(** X2. When the captured stdout ends with a line feed and has at least two
    lines, the summary body is the line before the last one (for the test
    scripts this tool is written for, the line above the closing
    ["1..N"]). *)
Theorem X2_summary_line_before_last (E : Env) (name outdir : string) (w : OS)
    (head l1 l2 : string) :
  Create_err E w (logfile E outdir name) = None →
  head = "" ∨ (∃ a, head = a +:+ nl) →
  has_byte LF l1 = false → has_byte LF l2 = false →
  let p := sh E (created (logfile E outdir name) w) name in
  p_stdout p = head +:+ l1 +:+ nl +:+ l2 +:+ nl →
  summary (runTest E name outdir w).1 =
    (match p_err p with None => "ok: " | Some _ => "error: " end) +:+ l1.
Proof.
  intros Hc Hhead H1 H2 p Hout.
  rewrite (runTest_created E name outdir w Hc). fold p. cbn [fst summary].
  assert (bytes_Split (l1 +:+ nl +:+ l2 +:+ nl) LF = [l1; l2; ""]) as Htail.
  { unfold nl. rewrite !append_cons, !append_nil_l, !bytes_Split_app.
    by rewrite !bytes_Split_none. }
  assert (∃ pre, bytes_Split (p_stdout p) LF = pre ++ [l1; l2; ""])
    as [pre Hpre].
  { rewrite Hout. destruct Hhead as [-> | [a ->]].
    - exists []. by rewrite append_nil_l.
    - exists (bytes_Split a LF). rewrite append_assoc. unfold nl at 1.
      by rewrite append_cons, append_nil_l, bytes_Split_app, Htail. }
  rewrite (summaryBody_last_three _ _ _ _ _ Hpre).
  unfold prefixed. by destruct (p_err p).
Qed.

Lemma X2_witness :
  Create_err demo emptyOS (logfile demo "out" "t1") = None ∧
  p_stdout (sh demo (created (logfile demo "out" "t1") emptyOS) "t1") =
    ("a" +:+ nl) +:+ "b" +:+ nl +:+ "c" +:+ nl ∧
  summary (runTest demo "t1" "out" emptyOS).1 = "ok: " +:+ "b".
Proof.
  split; [reflexivity |]. split; [reflexivity |].
  refine (X2_summary_line_before_last demo "t1" "out" emptyOS
            ("a" +:+ nl) "b" "c" eq_refl _ eq_refl eq_refl eq_refl).
  right. by exists "a".
Defined.

(** ** More about the summary file *)

(** X4. The summary file can be read back line by line: when neither the
    two header lines nor the names hold a line feed and some test failed,
    the lines of the text are the two headers and then the names, one per
    line.  Without failures the text ends with an empty line, as it does
    when the only name is empty. *)
Theorem X4_summary_lines (E : Env) (w : OS) (names : list string) :
  let h1 := "# run " +:+ fmt_Strings (os_Args E) in
  let h2 := "# on " +:+ now_RFC3339 E w +:+ ", elapsed " +:+
            elapsed_String E w +:+ ":" in
  has_byte LF h1 = false → has_byte LF h2 = false →
  (names ≠ [] → Forall (λ x, has_byte LF x = false) names →
   bytes_Split (summary_text E w names) LF = [h1; h2] ++ names) ∧
  bytes_Split (summary_text E w []) LF = [h1; h2; ""] ∧
  summary_text E w [] = summary_text E w [""].
Proof.
  intros h1 h2 H1 H2.
  assert (∀ l, summary_text E w l =
               h1 +:+ String LF (h2 +:+ String LF (strings_Join l nl))) as Hs.
  { intros l. unfold summary_text, h1, h2, nl.
    by rewrite !append_assoc, !append_cons, !append_nil_l. }
  split; [| split; [| done]].
  - intros Hne Hnames. rewrite Hs, !bytes_Split_app.
    rewrite (bytes_Split_none h1), (bytes_Split_none h2) by done.
    unfold nl. by rewrite bytes_Split_Join.
  - rewrite Hs, !bytes_Split_app.
    by rewrite (bytes_Split_none h1), (bytes_Split_none h2).
Qed.

Lemma X4_witness :
  bytes_Split (summary_text demo emptyOS ["t2"; "t3"]) LF =
    ["# run [rungittest --outdir out t*]";
     "# on 2009-11-10T23:00:00Z, elapsed 1.5s:"; "t2"; "t3"].
Proof.
  refine (proj1 (X4_summary_lines demo emptyOS ["t2"; "t3"] eq_refl eq_refl)
                _ _); [done |].
  repeat constructor.
Defined.

(** ** More about the scheduler *)

Section SchedulerMore.
Variable E : Env.
Variables (cap : nat) (out : string) (entries : list string) (w0 : OS).

Local Abbreviation N := (length entries).
Local Abbreviation Inv := (Inv E cap out entries w0).
Local Abbreviation step := (step E cap N out).
Local Abbreviation exec := (exec E cap N out).
Local Abbreviation taken := (steps_taken E cap N out).

Lemma weight_init : weight ((λ e, (e, Pending)) <$> entries) = 4 * N.
Proof. induction entries as [|e es IH]; cbn in *; lia. Qed.

Lemma fuel_init : fuel entries (init entries w0) = 5 * N.
Proof. unfold fuel. cbn. rewrite weight_init. lia. Qed.

Lemma exec_cons t sched s :
  exec (t :: sched) s = exec sched (default s (step t s)).
Proof. reflexivity. Qed.

(** The steps taken and the fuel left add up to the fuel at the start. *)
Lemma steps_fuel sched s :
  taken sched s + fuel entries (exec sched s) = fuel entries s.
Proof.
  revert s. induction sched as [|t sched IH]; intros s; [done |].
  rewrite exec_cons. cbn [steps_taken].
  destruct (step t s) as [s'|] eqn:Hs.
  - change (default s (Some s')) with s'.
    pose proof (step_fuel E cap out entries t s s' Hs). specialize (IH s'). lia.
  - apply IH.
Qed.

Lemma exec_fuel_le sched s : fuel entries (exec sched s) ≤ fuel entries s.
Proof. pose proof (steps_fuel sched s). lia. Qed.

(** A round in which some thread can take a step uses up fuel: that
    thread takes its step, unless others have taken theirs before it. *)
Lemma round_uses_fuel t l s s' :
  t ∈ l → step t s = Some s' → fuel entries (exec l s) < fuel entries s.
Proof.
  induction l as [|a l IH]; intros Ht Hs; [by apply elem_of_nil in Ht |].
  rewrite exec_cons. destruct (step a s) as [s1|] eqn:Ha.
  - change (default s (Some s1)) with s1.
    pose proof (step_fuel E cap out entries a s s1 Ha).
    pose proof (exec_fuel_le l s1). lia.
  - change (default s None) with s. apply IH; [| done].
    apply elem_of_cons in Ht as [-> | Ht]; [congruence | done].
Qed.

Lemma threads_Inv s : Inv s → threads s = all_threads N.
Proof.
  intros HI. unfold threads, all_threads.
  by rewrite (Inv_length E cap out entries w0 s HI).
Qed.

Lemma weight_pos_exists (us : list (string * pc)) :
  0 < weight us → ∃ k nm p, us !! k = Some (nm, p) ∧ 0 < remaining p.
Proof.
  induction us as [|[nm p] us IH]; cbn; [lia |]. intros H.
  destruct (decide (0 < remaining p)) as [Hp|Hp]; [by exists 0, nm, p |].
  destruct IH as (k & nm' & p' & Hk & Hp'); [lia |]. by exists (S k), nm', p'.
Qed.

Lemma weight_zero (us : list (string * pc)) :
  weight us = 0 → Forall (λ u, ∃ r, u.2 = Finished r) us.
Proof.
  induction us as [|[nm p] us IH]; cbn; [by constructor |]. intros H.
  constructor; [| apply IH; lia].
  destruct p as [| |r|r|r]; cbn in *; try lia. by exists r.
Qed.

Lemma countb_Finished f (us : list (string * pc)) :
  (∀ r, f (Finished r) = false) →
  Forall (λ u, ∃ r, u.2 = Finished r) us → countb f us = 0.
Proof.
  intros Hf. induction 1 as [|u us [r Hr] _ IH]; cbn; [done |].
  by rewrite Hr, Hf, IH.
Qed.

(** As long as there is fuel, some thread can take a step. *)
Lemma enabled_thread s :
  Inv s → 0 < cap → 0 < fuel entries s →
  ∃ t s', t ∈ all_threads N ∧ step t s = Some s'.
Proof.
  intros HI Hcap Hfuel. rewrite <- (threads_Inv s HI).
  pose proof (Inv_received E cap out entries w0 s HI) as Hi.
  pose proof (Inv_length E cap out entries w0 s HI) as Hlen.
  destruct (decide (i s < N)) as [Hlt|Hge];
    [by apply (can_step E cap out entries w0) |].
  unfold fuel in Hfuel.
  destruct (weight_pos_exists (units s)) as (k & nm & p & Hk & Hp); [lia |].
  pose proof (inv_results _ _ _ _ _ _ HI) as Hr.
  pose proof (countb_le has_sent (units s)).
  assert (has_sent p = true) as Hs
    by (apply (countb_all has_sent (units s) k nm p); [lia | done]).
  destruct (holder_steps E cap out entries w0 k nm p s HI Hk) as [s' Hs'].
  { destruct p; cbn in Hs, Hp |- *; (done || lia). }
  exists (Go k), s'. split; [by eapply Go_thread | done].
Qed.

Lemma round_robin_S n T : round_robin (S n) T = T ++ round_robin n T.
Proof. reflexivity. Qed.

(** Every round of a schedule that names all threads in turn uses up
    fuel, as long as there is some. *)
Lemma rounds_use_fuel n s :
  Inv s → 0 < cap →
  fuel entries (exec (round_robin n (all_threads N)) s) ≤ fuel entries s - n.
Proof.
  revert s. induction n as [|n IH]; intros s HI Hcap.
  { cbn. lia. }
  rewrite round_robin_S, (exec_app E cap out entries).
  set (s1 := exec (all_threads N) s).
  assert (Inv s1) as HI1 by by apply exec_Inv.
  specialize (IH s1 HI1 Hcap).
  destruct (decide (0 < fuel entries s)) as [Hpos|Hzero].
  - destruct (enabled_thread s HI Hcap Hpos) as (t & s' & Ht & Hs').
    pose proof (round_uses_fuel t _ s s' Ht Hs'). fold s1 in H. lia.
  - pose proof (exec_fuel_le (all_threads N) s). fold s1 in H. lia.
Qed.

(** Without fuel the run is over: all results are received, the channels
    are empty and all goroutines have ended. *)
Lemma no_fuel_left s :
  Inv s → fuel entries s = 0 →
  i s = N ∧ results s = [] ∧ throttle s = 0 ∧
  Forall (λ u, ∃ r, u.2 = Finished r) (units s).
Proof.
  intros HI Hfuel. unfold fuel in Hfuel.
  pose proof (Inv_received E cap out entries w0 s HI) as Hi.
  pose proof (Inv_length E cap out entries w0 s HI) as Hlen.
  pose proof (inv_results _ _ _ _ _ _ HI) as Hr.
  pose proof (inv_holders _ _ _ _ _ _ HI) as Hh.
  pose proof (countb_le has_sent (units s)).
  assert (Forall (λ u, ∃ r, u.2 = Finished r) (units s)) as Hfin
    by (apply weight_zero; lia).
  split; [lia |]. split; [apply length_zero_iff_nil; lia |].
  split; [| done]. rewrite <- Hh. unfold holders.
  by apply countb_Finished.
Qed.

End SchedulerMore.

(** X5. Whatever the schedule, the threads of a run over [N] entries take
    at most [5 * N] steps: four for each goroutine and one for each result
    that [main] receives. *)
Theorem X5_step_bound (E : Env) (cap : nat) (out : string)
    (entries : list string) (w : OS) (sched : list tid) :
  steps_taken E cap (length entries) out sched (init entries w)
    ≤ 5 * length entries.
Proof.
  pose proof (steps_fuel E cap out entries sched (init entries w)).
  rewrite fuel_init in H. lia.
Qed.

(** With at least one slot, the schedule that names all threads in turn,
    [5 * N] times over, uses up all fuel. *)
Lemma fair_schedule_ends (E : Env) (cap : nat) (out : string)
    (entries : list string) (w : OS) :
  0 < cap →
  let N := length entries in
  let s := exec E cap N out (round_robin (5 * N) (all_threads N))
             (init entries w) in
  Inv E cap out entries w s ∧
  i s = N ∧ results s = [] ∧ throttle s = 0 ∧
  Forall (λ u, ∃ r, u.2 = Finished r) (units s).
Proof.
  intros Hcap N s.
  assert (Inv E cap out entries w s) as HI by apply exec_Inv, Inv_init.
  pose proof (rounds_use_fuel E cap out entries w (5 * N) (init entries w)
                (Inv_init E cap out entries w) Hcap) as Hf.
  rewrite fuel_init in Hf. fold N s in Hf.
  split; [done |]. apply (no_fuel_left E cap out entries w s HI). lia.
Qed.

(** X6. With at least one slot, a schedule that names all threads in turn,
    [5 * N] times over, ends the run: [main] has received all [N] results,
    both channels are empty and every goroutine has ended. *)
Theorem X6_fair_schedule_ends (E : Env) (cap : nat) (out : string)
    (entries : list string) (w : OS) :
  0 < cap →
  let N := length entries in
  let s := exec E cap N out (round_robin (5 * N) (all_threads N))
             (init entries w) in
  i s = N ∧ results s = [] ∧ throttle s = 0 ∧
  Forall (λ u, ∃ r, u.2 = Finished r) (units s) ∧
  (units s).*1 = entries.
Proof.
  intros Hcap N s.
  destruct (fair_schedule_ends E cap out entries w Hcap)
    as (HI & ? & ? & ? & ?).
  repeat split; try done. apply (inv_names _ _ _ _ _ _ HI).
Qed.

Lemma X6_witness :
  let s := exec demo 1 3 "out" (round_robin 15 (all_threads 3))
             (init ["t1"; "t2"; "t3"] emptyOS) in
  0 < 1 ∧ i s = 3 ∧ throttle s = 0.
Proof.
  intros s. split; [lia |].
  destruct (X6_fair_schedule_ends demo 1 "out" ["t1"; "t2"; "t3"] emptyOS)
    as (Hi & _ & Ht & _); [lia |].
  split; [exact Hi | exact Ht].
Defined.

(** ** What is printed *)

Lemma step_go_frame (E : Env) (cap N : nat) (out : string) k s s' :
  step_go E cap N out k s = Some s' →
  stdout s' = stdout s ∧ i s' = i s ∧ failed s' = failed s.
Proof.
  unfold step_go. destruct (units s !! k) as [[nm [| |r|r|r]]|]; try done.
  - destruct (throttle s <? cap); [| done]. by intros [= <-].
  - destruct (runTest E nm out (os s)). by intros [= <-].
  - destruct (length (results s) <? N); [| done]. by intros [= <-].
  - destruct (throttle s); [done |]. by intros [= <-].
Qed.

(** X7. In every state of a run the progress lines printed so far are
    numbered [1], [2], ... in the order in which they were printed, each
    with the number of entries as its total; there is one for each result
    received, and one line break for each name in [failed]. *)
Theorem X7_progress_numbered (E : Env) (cap : nat) (out : string)
    (entries : list string) (w : OS) (sched : list tid) :
  let N := length entries in
  let s := exec E cap N out sched (init entries w) in
  length (progress_lines (stdout s)) = i s ∧
  (∀ k x, progress_lines (stdout s) !! k = Some x →
          ∃ nm sm, x = Progress (k + 1) N nm sm) ∧
  length (List.filter is_newline (stdout s)) = length (failed s).
Proof.
  intros N.
  set (P := λ s : State,
    length (progress_lines (stdout s)) = i s ∧
    (∀ k x, progress_lines (stdout s) !! k = Some x →
            ∃ nm sm, x = Progress (k + 1) N nm sm) ∧
    length (List.filter is_newline (stdout s)) = length (failed s)).
  assert (∀ t s s', P s → step E cap N out t s = Some s' → P s') as Hstep.
  { intros [|k] s s' (Hlen & Hnum & Hnl) Hs; cbn in Hs.
    - unfold step_main in Hs. destruct (i s <? N); [| done].
      destruct (results s) as [|r rs]; [done |]. injection Hs as <-.
      unfold P, progress_lines in *. cbn [stdout i failed].
      assert (∀ tl, List.filter is_progress tl = [] →
                length (List.filter is_progress
                  (stdout s ++ Progress (i s + 1) N (name r) (summary r) :: tl))
                  = S (i s) ∧
                ∀ k x, List.filter is_progress
                  (stdout s ++ Progress (i s + 1) N (name r) (summary r) :: tl)
                  !! k = Some x → ∃ nm sm, x = Progress (k + 1) N nm sm) as Hp.
      { intros tl Htl. rewrite List.filter_app. cbn. rewrite Htl.
        split; [rewrite length_app; cbn; lia |].
        intros k x Hk. apply lookup_app_Some in Hk as [Hk | [Hge Hk]];
          [by apply Hnum |].
        rewrite Hlen in Hge, Hk.
        destruct (k - i s) as [|d] eqn:Hd; [| done].
        injection Hk as <-. replace k with (i s) by lia. eauto. }
      destruct (err r).
      + destruct (Hp [Newline] eq_refl) as [H1 H2]. split; [done |].
        split; [done |]. rewrite List.filter_app, !length_app. cbn. lia.
      + destruct (Hp [] eq_refl) as [H1 H2]. split; [done |].
        split; [done |]. rewrite List.filter_app, length_app. cbn. lia.
    - apply step_go_frame in Hs as (Ho & Hi & Hf). unfold P.
      by rewrite Ho, Hi, Hf. }
  assert (∀ l s, P s → P (exec E cap N out l s)) as Hexec.
  { induction l as [|t l IH]; intros s HP; [done |].
    cbn. apply IH. destruct (step E cap N out t s) eqn:Hs; [| done].
    by apply (Hstep t s). }
  apply (Hexec sched (init entries w)). by split.
Qed.

(** ** More about [main] *)

Lemma step_init_no_slot (E : Env) (N : nat) (out : string)
    (entries : list string) (w : OS) (t : tid) :
  step E 0 N out t (init entries w) = None.
Proof.
  destruct t as [|k]; cbn [step].
  - unfold step_main. cbn [i results init]. by destruct (0 <? N).
  - unfold step_go. cbn [units init]. rewrite list_lookup_fmap.
    by destruct (entries !! k).
Qed.

Lemma exec_init_no_slot (E : Env) (N : nat) (out : string)
    (entries : list string) (w : OS) (sched : list tid) :
  exec E 0 N out sched (init entries w) = init entries w.
Proof.
  induction sched as [|t sched IH]; [done |].
  cbn. rewrite step_init_no_slot. apply IH.
Qed.

(** X8. [--jobs] is taken as it is given.  With [--jobs 0] and at least one
    entry no goroutine ever gets a slot: under every schedule the process
    ends with all goroutines asleep, no test run and no file written.  With
    a negative [--jobs] the process panics when it makes [throttle], after
    the output directory has been made. *)
Theorem X8_jobs_not_positive (E : Env) (jobs : Z) (out : string)
    (args entries : list string) (sched : list tid) (w : OS) :
  out ≠ "" → args ≠ [] → globAll E args [] = inr entries →
  MkdirAll_err E w out = None →
  let w1 := emit (EvMkdirAll out) w in
  (jobs = 0%Z → entries ≠ [] →
   main E jobs out args sched w = Deadlock (init entries w1)) ∧
  ((jobs < 0)%Z → main E jobs out args sched w = Panic w1).
Proof.
  intros Hout Hargs Hglob Hmk w1. split.
  - intros -> Hne.
    rewrite (main_scheduled E 0 out args entries sched w) by (done || lia).
    change (Z.to_nat 0) with 0. fold w1. rewrite exec_init_no_slot.
    cbn [i init]. destruct entries as [|e es]; [done |]. cbn [length Nat.ltb Nat.leb].
    assert (stuck E 0 (S (length es)) out (init (e :: es) w1) = true) as ->;
      [| done].
    unfold stuck. apply forallb_forall. intros t _.
    apply bool_decide_eq_true. apply step_init_no_slot.
  - intros Hneg. apply (main_no_chan E jobs out args entries); try done.
    apply make_chan_None. by left.
Qed.

Lemma X8_witness :
  "out" ≠ "" ∧ ["t*"] ≠ [] ∧
  main demo 0 "out" ["t*"] demo_schedule emptyOS =
    Deadlock (init ["t1"; "t2"; "t3"] (emit (EvMkdirAll "out") emptyOS)).
Proof.
  split; [done |]. split; [done |].
  refine (proj1 (X8_jobs_not_positive demo 0 "out" ["t*"] ["t1"; "t2"; "t3"]
                   demo_schedule emptyOS _ _ eq_refl eq_refl) eq_refl _);
    done.
Defined.

(** X9. A fatal error comes before all tests or after all tests.  When the
    process ends in [log.Fatal] for another reason than the summary, no
    log file has been asked for, no test has been started and the program
    has written no file.  When it ends because the summary could not be
    written, the loop has received all results and every entry has had its
    log file asked for; the failed write leaves all files as the tests
    left them when the summary file could not be opened, and otherwise
    leaves the summary file, made anew, with the bytes that got through
    before the error. *)
Theorem X9_fatal_timing (E : Env) (jobs : Z) (out : string)
    (args : list string) (sched : list tid) (w w' : OS) (c : FatalCause) :
  main E jobs out args sched w = Fatal c w' →
  match c with
  | SummaryWriteError e =>
      let f := filepath_Join E out "summary.txt" in
      ∃ entries s evs,
        globAll E args [] = inr entries ∧
        s = exec E (Z.to_nat jobs) (length entries) out sched
              (init entries (emit (EvMkdirAll out) w)) ∧
        i s = length entries ∧
        trace (os s) = trace w ++ [EvMkdirAll out] ++ evs ∧
        attempts evs ≡ₚ logfile E out <$> entries ∧
        WriteFile_err E (os s) f = Some e ∧
        trace w' = trace (os s) ++ [EvWriteFile f false] ∧
        (files w' = files (os s) ∨
         ∃ n, files w' =
                <[f := first_bytes n
                         (summary_text E (os s) (sort_Strings (failed s)))]>
                  (files (os s)))
  | _ =>
      files w' = files w ∧
      (trace w' = trace w ∨ trace w' = trace w ++ [EvMkdirAll out])
  end.
Proof.
  unfold main, os_MkdirAll. intros H.
  destruct (decide (out = "")); [injection H as <- <-; auto |].
  destruct (decide (length args = 0)); [injection H as <- <-; auto |].
  destruct (globAll E args []) as [e|entries] eqn:Hglob;
    [injection H as <- <-; auto |].
  destruct (MkdirAll_err E w out) eqn:Hmk; [injection H as <- <-; auto |].
  destruct (make_chan E jobs) as [cap|] eqn:Hcap; [| done].
  apply make_chan_Some in Hcap as [_ ->].
  set (w1 := emit (EvMkdirAll out) w) in *.
  set (s := exec E _ _ _ _ _) in *.
  assert (Inv E (Z.to_nat jobs) out entries w1 s) as HI
    by apply exec_Inv, Inv_init.
  pose proof (Inv_received _ _ _ _ _ _ HI).
  destruct (Nat.ltb_spec (i s) (length entries)).
  { by destruct (stuck _ _ _ _ _). }
  destruct (finish_cases E out s) as [(e & w2 & He & Hf & Ht2 & Hfiles) | [_ Hf]];
    rewrite Hf in H; [| done]. injection H as <- <-.
  destruct (loop_ended E _ out entries w1 s HI) as (_ & _ & _ & _ & Hos);
    [lia |].
  destruct Hos as (evs & Ht & Ha & _).
  exists entries, s, evs. split; [done |]. split; [done |]. split; [lia |].
  split; [| done]. rewrite Ht. subst w1. cbn. by rewrite <- app_assoc.
Qed.

Lemma X9_witness :
  match main demo_full 2 "out" ["t*"] demo_schedule emptyOS with
  | Fatal (SummaryWriteError e) w' =>
      e = "write out/summary.txt: no space left on device" ∧
      files w' !! "out/summary.txt" = Some "# run " ∧
      ∃ evs, attempts evs ≡ₚ ["out/t1.log"; "out/t2.log"; "out/t3.log"] ∧
             trace w' = [EvMkdirAll "out"] ++ evs ++
                        [EvWriteFile "out/summary.txt" false]
  | _ => False
  end.
Proof.
  destruct (main demo_full 2 "out" ["t*"] demo_schedule emptyOS)
    as [c w'|w'|s|s|s] eqn:H; try (vm_compute in H; discriminate H).
  pose proof (X9_fatal_timing demo_full 2 "out" ["t*"] demo_schedule emptyOS
                w' c H) as HX.
  vm_compute in H. injection H as <- <-.
  destruct HX as (entries & s & evs & Hg & _ & _ & Ht & Ha & _ & Ht' & _).
  injection Hg as <-.
  split; [reflexivity |]. split; [vm_compute; reflexivity |].
  exists evs. split; [exact Ha |].
  rewrite Ht in Ht'. rewrite <- app_assoc in Ht'. exact Ht'.
Defined.

Lemma sort_Strings_Permutation l l' :
  l ≡ₚ l' → sort_Strings l = sort_Strings l'.
Proof.
  intros Hp. apply sort_Strings_unique; [apply sort_Strings_sorted |].
  by rewrite sort_Strings_perm.
Qed.

(** When every result carries the name of its test and has failed exactly
    when the test does not pass, the names of the failed results are the
    entries that do not pass. *)
Lemma failures_delivered_filter (passes : string → bool)
    (us : list (string * pc)) :
  countb has_sent us = length us →
  (∀ k nm p r, us !! k = Some (nm, p) → pc_result p = Some r →
     name r = nm ∧ (err r = None ↔ passes nm = true)) →
  failures (delivered us) = filter (λ e, passes e = false) us.*1.
Proof.
  induction us as [|[nm p] us IH]; [done |]. intros Hc H.
  pose proof (countb_all has_sent _ 0 nm p Hc eq_refl) as Hs.
  assert (countb has_sent us = length us) as Hc'.
  { cbn in Hc. rewrite Hs in Hc. lia. }
  specialize (IH Hc' (λ k, H (S k))).
  assert (∀ r, pc_result p = Some r →
            failures (r :: delivered us) =
            filter (λ e, passes e = false) ((nm, p) :: us).*1) as Hr.
  { intros r Hr. destruct (H 0 nm p r eq_refl Hr) as [Hn He].
    rewrite fmap_cons. cbn [failures fst].
    destruct (err r) as [e|] eqn:Herr.
    - rewrite filter_cons_True; [by rewrite Hn, IH |].
      destruct (passes nm); [| done]. by destruct He as [_ He]; discriminate He.
    - rewrite filter_cons_False; [done |].
      rewrite (proj1 He eq_refl). done. }
  destruct p as [| |r|r|r]; try done; by apply Hr.
Qed.

(** X10. On a machine that creates every log file, and with scripts whose
    success depends on the script alone, the list of failures of a run that
    ends with status 0 is the sorted list of the entries whose script
    fails: it does not depend on the schedule, that is on the order in
    which the tests end. *)
Theorem X10_failures_are_failed_entries (E : Env) (passes : string → bool)
    (jobs : Z) (out : string) (args : list string) (sched : list tid)
    (w : OS) (s' : State) :
  (∀ w f, Create_err E w f = None) →
  (∀ w nm, p_err (sh E w nm) = None ↔ passes nm = true) →
  main E jobs out args sched w = Exit0 s' →
  ∃ entries,
    globAll E args [] = inr entries ∧
    failed s' = sort_Strings (filter (λ e, passes e = false) entries).
Proof.
  intros Hcreate Hpass H. apply main_Exit0_inv in H
    as (entries & _ & _ & Hglob & _ & _ & HI & Hi & Hfin).
  exists entries. split; [done |].
  match type of Hfin with
  | finish E out ?s = _ =>
      destruct (finish_cases E out s) as [(e & w2 & _ & Hf & _) | [_ Hf]];
      rewrite Hf in Hfin; [done |]; injection Hfin as <-; cbn [failed];
      destruct (loop_ended E _ out entries _ s HI Hi)
        as (_ & _ & Hfailed & _ & _);
      pose proof (Inv_length _ _ _ _ _ _ HI) as Hlen;
      pose proof (inv_results _ _ _ _ _ _ HI) as Hr;
      pose proof (inv_names _ _ _ _ _ _ HI) as Hn;
      pose proof (inv_produced _ _ _ _ _ _ HI) as Hq;
      pose proof (countb_le has_sent (units s)) as Hle;
      rewrite (sort_Strings_Permutation _ _ Hfailed);
      rewrite (failures_delivered_filter passes), Hn; [done | lia |]
  end.
  intros k nm p r Hk Hp. destruct (Hq k nm p r Hk Hp) as [wr ->].
  rewrite (runTest_created E nm out wr (Hcreate _ _)). cbn. split; [done |].
  apply Hpass.
Qed.

Lemma X10_witness :
  ∃ s', main demo_writable 2 "out" ["t*"] demo_schedule emptyOS = Exit0 s' ∧
        failed s' = ["t2"].
Proof.
  eexists. split; [vm_compute; reflexivity |].
  match goal with
  | |- failed ?s = _ =>
      destruct (X10_failures_are_failed_entries demo_writable
                  (λ nm, negb (bool_decide (nm = "t2")))
                  2 "out" ["t*"] demo_schedule emptyOS s)
        as (entries & Hg & Hf)
  end.
  - done.
  - intros w nm. cbn. destruct (decide (nm = "t2")) as [->|Hne].
    + by rewrite bool_decide_eq_true_2.
    + by rewrite bool_decide_eq_false_2.
  - vm_compute. reflexivity.
  - reflexivity.
Defined.

(** ** The second variant of [main] *)

Lemma forallb_pointwise {A} (f g : A → bool) (l : list A) :
  (∀ x, f x = g x) → forallb f l = forallb g l.
Proof. intros H. induction l as [|x l IH]; cbn; [done |]. by rewrite H, IH. Qed.

Section Variants.
Variable E : Env.
Variables (cap N : nat) (out : string).

Local Abbreviation step1 := (step E cap N out).
Local Abbreviation step2 := (Variant2.step E cap N out).
Local Abbreviation exec1 := (exec E cap N out).
Local Abbreviation exec2 := (Variant2.exec E cap N out).

(** The two executors agree on a blind machine whatever the files hold. *)
Lemma runTest_blind nm w w' :
  blind E → trace w = trace w' →
  (runTest E nm out w).1 = (V2.runTest E nm out w').1 ∧
  trace (runTest E nm out w).2 = trace (V2.runTest E nm out w').2.
Proof.
  intros Hb Ht. pose proof (proj1 (Hb w w' (logfile E out nm) Ht)) as Hc.
  destruct (Create_err E w' (logfile E out nm)) as [e|] eqn:Hc'.
  - rewrite (runTest_create_error E _ _ _ _ Hc),
      (V2_runTest_create_error E _ _ _ _ Hc'). cbn. by rewrite Ht.
  - rewrite (runTest_created E _ _ _ Hc), (V2_runTest_created E _ _ _ Hc').
    cbn. rewrite Ht.
    assert (sh E (created (logfile E out nm) w) nm =
            sh E (created (logfile E out nm) w') nm) as ->; [| done].
    apply Hb. cbn. by rewrite Ht.
Qed.

Lemma same_run_step t s1 s2 :
  blind E → same_run s1 s2 →
  match step1 t s1, step2 t s2 with
  | Some s1', Some s2' => same_run s1' s2'
  | None, None => True
  | _, _ => False
  end.
Proof.
  intros Hb (Hu & Ht & Hr & Hi & Ho & Htr). destruct t as [|k]; cbn.
  - unfold step_main, Variant2.step_main. rewrite <- Hi, <- Hr.
    destruct (i s1 <? N); [| done]. destruct (results s1) as [|r rs]; [done |].
    repeat split; cbn; try done; by rewrite ?Hi, ?Ho.
  - unfold step_go, Variant2.step_go. rewrite <- Hu, <- Ht, <- Hr.
    destruct (units s1 !! k) as [[nm [| |r|r|r]]|]; try done.
    + destruct (throttle s1 <? cap); [| done]. repeat split; cbn; congruence.
    + destruct (runTest_blind nm (os s1) (os s2) Hb Htr) as [H1 H2].
      destruct (runTest E nm out (os s1)) as [r1 w1].
      destruct (V2.runTest E nm out (os s2)) as [r2 w2]. cbn in H1, H2.
      repeat split; cbn; congruence.
    + destruct (length (results s1) <? N); [| done].
      repeat split; cbn; congruence.
    + destruct (throttle s1); [done |]. repeat split; cbn; congruence.
Qed.

Lemma same_run_exec sched s1 s2 :
  blind E → same_run s1 s2 → same_run (exec1 sched s1) (exec2 sched s2).
Proof.
  intros Hb. revert s1 s2. induction sched as [|t sched IH]; intros s1 s2 H;
    [done |].
  cbn. apply IH. pose proof (same_run_step t s1 s2 Hb H) as Hs.
  by destruct (step1 t s1), (step2 t s2).
Qed.

Lemma same_run_stuck s1 s2 :
  blind E → same_run s1 s2 →
  stuck E cap N out s1 = Variant2.stuck E cap N out s2.
Proof.
  intros Hb H. unfold stuck, Variant2.stuck, threads.
  rewrite <- (proj1 H). apply forallb_pointwise. intros t.
  pose proof (same_run_step t s1 s2 Hb H) as Hs.
  by destruct (step1 t s1), (step2 t s2).
Qed.

End Variants.

(** X11. On a blind machine the second variant, given any arguments, runs
    as the first variant does on the first pattern alone, under the same
    schedule: it stops for the same configuration errors with the machine
    in the same state, it is under way or asleep in the same state, and
    when the first variant ends its loop the second has printed the same
    lines and made the same calls; the first then adds the report line and
    the summary file, which the second does not have. *)
Theorem X11_second_variant_same_run (E : Env) (jobs : Z) (out g : string)
    (rest : list string) (sched : list tid) (w : OS) :
  blind E →
  match main E jobs out [g] sched w,
        Variant2.main E jobs out (g :: rest) sched w with
  | Exit0 s1, Exit0 s2 =>
      units s1 = units s2 ∧
      (∃ elapsed, stdout s1 = stdout s2 ++ [Report (length (failed s1)) elapsed]) ∧
      trace (os s1) =
        trace (os s2) ++ [EvWriteFile (filepath_Join E out "summary.txt") true]
  | Fatal (SummaryWriteError _) w1, Exit0 s2 =>
      trace w1 =
        trace (os s2) ++ [EvWriteFile (filepath_Join E out "summary.txt") false]
  | Fatal c1 w1, Fatal c2 w2 => c1 = c2 ∧ w1 = w2
  | Panic w1, Panic w2 => w1 = w2
  | Deadlock s1, Deadlock s2 | Running s1, Running s2 => same_run s1 s2
  | _, _ => False
  end.
Proof.
  intros Hb. unfold main, Variant2.main, os_MkdirAll.
  destruct (decide (out = "")); [done |].
  destruct (decide (length [g] = 0)); [done |]. cbn [globAll].
  destruct (filepath_Glob E g) as [entries [e|]]; [done |].
  rewrite app_nil_l. cbn [globAll].
  destruct (MkdirAll_err E w out); [done |].
  destruct (make_chan E jobs) as [cap|]; [| done].
  set (w1 := emit (EvMkdirAll out) w).
  set (s1 := exec E _ _ _ _ _). set (s2 := Variant2.exec E _ _ _ _ _).
  assert (same_run s1 s2) as Hs by by apply same_run_exec.
  rewrite <- (same_run_stuck E _ _ _ s1 s2 Hb Hs).
  destruct Hs as (Hu & Ht & Hr & Hi & Ho & Htr). rewrite <- Hi.
  destruct (i s1 <? length entries).
  { by destruct (stuck _ _ _ _ s1). }
  destruct (finish_cases E out s1) as [(e & w2 & _ & -> & Ht2 & _) | [_ ->]];
    cbn.
  - by rewrite Ht2, Htr.
  - split; [done |]. split; [| by rewrite Htr].
    eexists. by rewrite Ho, <- app_assoc.
Qed.

Lemma blind_demo : blind demo.
Proof. intros w w' x _. by split. Qed.

Lemma X11_witness :
  match Variant2.main demo 2 "out" ["t*"; "ignored"] demo_schedule emptyOS with
  | Exit0 s2 =>
      stdout demo_final = stdout s2 ++ [Report 2 "1.5s"] ∧
      units demo_final = units s2
  | _ => False
  end.
Proof.
  pose proof (X11_second_variant_same_run demo 2 "out" "t*" ["ignored"]
                demo_schedule emptyOS blind_demo) as H.
  assert (main demo 2 "out" ["t*"] demo_schedule emptyOS = Exit0 demo_final)
    as Hm by (vm_compute; reflexivity).
  rewrite Hm in H.
  destruct (Variant2.main demo 2 "out" ["t*"; "ignored"] demo_schedule emptyOS)
    as [| | | |s2] eqn:H2; try exact H.
  destruct H as (Hu & _ & _). split; [| exact Hu].
  assert (Exit0 s2 = Exit0 s2) as Heq by reflexivity.
  rewrite <- H2 in Heq at 1. vm_compute in Heq. injection Heq as <-.
  reflexivity.
Defined.

Section Shapes.
Variable E : Env.
Variables (cap N : nat) (out : string).

Local Abbreviation step1 := (step E cap N out).
Local Abbreviation step2 := (Variant2.step E cap N out).
Local Abbreviation exec1 := (exec E cap N out).
Local Abbreviation exec2 := (Variant2.exec E cap N out).

(** Whether a thread can take a step, and where it stands after it, does
    not depend on the results: on any machine the goroutines of the two
    variants move in step. *)
Lemma same_shape_step t s1 s2 :
  same_shape s1 s2 →
  match step1 t s1, step2 t s2 with
  | Some s1', Some s2' => same_shape s1' s2'
  | None, None => True
  | _, _ => False
  end.
Proof.
  intros (Hu & Ht & Hr & Hi). destruct t as [|k]; cbn.
  - unfold step_main, Variant2.step_main. rewrite <- Hi.
    destruct (i s1 <? N); [| done].
    destruct (results s1) as [|r1 rs1], (results s2) as [|r2 rs2]; try done.
    cbn in Hr. repeat split; cbn; (done || lia).
  - unfold step_go, Variant2.step_go. rewrite <- Ht, <- Hr.
    pose proof (Forall2_length _ _ _ Hu) as Hlen.
    destruct (units s1 !! k) as [[nm1 p1]|] eqn:H1,
             (units s2 !! k) as [[nm2 p2]|] eqn:H2.
    + destruct (Forall2_lookup_lr _ _ _ _ _ _ Hu H1 H2) as [Hn Hp].
      cbn in Hn, Hp. subst nm2.
      assert (∀ q1 q2, remaining q1 = remaining q2 →
                Forall2 (λ u1 u2, u1.1 = u2.1 ∧ remaining u1.2 = remaining u2.2)
                  (<[k := (nm1, q1)]> (units s1))
                  (<[k := (nm1, q2)]> (units s2))) as Hins
        by (intros q1 q2 Hq; by apply Forall2_insert).
      destruct p1 as [| |r1|r1|r1], p2 as [| |r2|r2|r2]; try done.
      * destruct (throttle s1 <? cap); [| done].
        repeat split; cbn; first [by apply Hins | congruence].
      * destruct (runTest E nm1 out (os s1)) as [r1 w1].
        destruct (V2.runTest E nm1 out (os s2)) as [r2 w2].
        repeat split; cbn; first [by apply Hins | congruence].
      * destruct (length (results s1) <? N); [| done].
        repeat split; cbn; rewrite ?length_app; cbn;
          first [by apply Hins | lia].
      * destruct (throttle s1) eqn:Hth; [done |].
        repeat split; cbn; first [by apply Hins | congruence].
    + apply lookup_lt_Some in H1. apply lookup_ge_None in H2. lia.
    + apply lookup_lt_Some in H2. apply lookup_ge_None in H1. lia.
    + done.
Qed.

Lemma same_shape_exec sched s1 s2 :
  same_shape s1 s2 → same_shape (exec1 sched s1) (exec2 sched s2).
Proof.
  revert s1 s2. induction sched as [|t sched IH]; intros s1 s2 H; [done |].
  cbn. apply IH. pose proof (same_shape_step t s1 s2 H) as Hs.
  by destruct (step1 t s1), (step2 t s2).
Qed.

Lemma same_shape_refl s : same_shape s s.
Proof.
  repeat split; try done. apply Forall2_same_length_lookup_2; [done |].
  intros k u u' H H'. rewrite H in H'. by injection H' as <-.
Qed.

Lemma same_shape_holders s1 s2 : same_shape s1 s2 → holders s1 = holders s2.
Proof.
  intros (Hu & _). unfold holders.
  induction Hu as [|[nm1 p1] [nm2 p2] us1 us2 [_ Hp] _ IH]; [done |].
  cbn in *. rewrite IH. by destruct p1, p2.
Qed.

Lemma same_shape_Finished s1 s2 :
  same_shape s1 s2 →
  Forall (λ u, ∃ r, u.2 = Finished r) (units s1) →
  Forall (λ u, ∃ r, u.2 = Finished r) (units s2).
Proof.
  intros (Hu & _).
  induction Hu as [|[nm1 p1] [nm2 p2] us1 us2 [_ Hp] _ IH]; [done |].
  intros [[r Hr] Hus]%Forall_cons. constructor; [| by apply IH].
  cbn in *. subst p1. destruct p2; try done. eauto.
Qed.

End Shapes.

(** X12. The goroutines of the second variant keep the budget as those of
    the first do, on every machine: in every state of a run the goroutines
    that hold a slot are as many as the elements of [throttle] and at most
    its capacity; and with at least one slot a schedule that names all
    threads in turn, [5 * N] times over, ends the run with all results
    received, all slots given back and every goroutine ended. *)
Theorem X12_second_variant_budget (E : Env) (cap : nat) (out : string)
    (entries : list string) (w : OS) (sched : list tid) :
  let N := length entries in
  let s := Variant2.exec E cap N out sched (init entries w) in
  holders s = throttle s ∧ throttle s ≤ cap ∧
  (0 < cap →
   let s' := Variant2.exec E cap N out (round_robin (5 * N) (all_threads N))
               (init entries w) in
   i s' = N ∧ throttle s' = 0 ∧
   Forall (λ u, ∃ r, u.2 = Finished r) (units s')).
Proof.
  intros N s.
  set (s1 := exec E cap N out sched (init entries w)).
  assert (same_shape s1 s) as Hs
    by apply same_shape_exec, same_shape_refl.
  assert (Inv E cap out entries w s1) as HI by apply exec_Inv, Inv_init.
  pose proof (inv_holders _ _ _ _ _ _ HI) as Hh.
  pose proof (inv_cap _ _ _ _ _ _ HI) as Hc.
  rewrite (same_shape_holders _ _ Hs) in Hh.
  destruct Hs as (_ & Ht & _ & _). rewrite Ht in Hh, Hc.
  split; [done |]. split; [done |]. intros Hcap s'.
  set (s1' := exec E cap N out (round_robin (5 * N) (all_threads N))
                (init entries w)).
  assert (same_shape s1' s') as Hs'
    by apply same_shape_exec, same_shape_refl.
  destruct (fair_schedule_ends E cap out entries w Hcap)
    as (_ & Hi & _ & Hth & Hfin). fold N s1' in Hi, Hth, Hfin.
  split; [| split].
  - destruct Hs' as (_ & _ & _ & <-). done.
  - destruct Hs' as (_ & <- & _ & _). done.
  - by apply (same_shape_Finished s1' s').
Qed.

Lemma X12_witness :
  let s' := Variant2.exec demo 1 3 "out" (round_robin 15 (all_threads 3))
              (init ["t1"; "t2"; "t3"] emptyOS) in
  0 < 1 ∧ i s' = 3 ∧ throttle s' = 0.
Proof.
  intros s'. split; [lia |].
  destruct (X12_second_variant_budget demo 1 "out" ["t1"; "t2"; "t3"] emptyOS [])
    as (_ & _ & H).
  destruct H as (Hi & Ht & _); [lia |]. split; [exact Hi | exact Ht].
Defined.

(** ** Expanding the patterns *)

Lemma globAll_error_acc (E : Env) (args acc acc' : list string) (e : string) :
  globAll E args acc = inl e → globAll E args acc' = inl e.
Proof.
  revert acc acc'. induction args as [|f args IH]; intros acc acc' H; [done |].
  cbn in *. destruct (filepath_Glob E f) as [es [e'|]]; [done |].
  by apply (IH (acc ++ es)).
Qed.

(** X13. The expansion of the patterns fails exactly when [Glob] rejects
    one of them, and the error is that of the first pattern it rejects:
    the patterns after it are not looked at. *)
Theorem X13_first_bad_pattern (E : Env) (args : list string) (e : string) :
  globAll E args [] = inl e ↔
  ∃ good f rest,
    args = good ++ f :: rest ∧
    Forall (λ g, (filepath_Glob E g).2 = None) good ∧
    (filepath_Glob E f).2 = Some e.
Proof.
  split.
  - induction args as [|f args IH]; [done |]. cbn.
    destruct (filepath_Glob E f) as [es [e'|]] eqn:Hf.
    + intros [= <-]. exists [], f, args. by rewrite Hf.
    + intros H. destruct (IH (globAll_error_acc E _ _ _ _ H))
        as (good & f' & rest & -> & Hgood & Hf').
      exists (f :: good), f', rest. split; [done |]. split; [| done].
      constructor; [by rewrite Hf | done].
  - intros (good & f & rest & -> & Hgood & Hf). generalize (@nil string).
    induction Hgood as [|g good Hg _ IH]; intros acc; cbn.
    + destruct (filepath_Glob E f) as [es o]. cbn in Hf. by subst o.
    + destruct (filepath_Glob E g) as [es o]. cbn in Hg. subst o. apply IH.
Qed.

(** ** The files after the run *)

(** On a machine that creates every log file, a step either leaves the
    machine alone or is the call of [runTest] for one more entry, which
    creates the log file and then starts the script. *)
Lemma step_calls (E : Env) (cap N : nat) (out : string) t s s' :
  (∀ w f, Create_err E w f = None) →
  step E cap N out t s = Some s' →
  (os s' = os s ∧ ran (units s') = ran (units s)) ∨
  (∃ nm, trace (os s') =
           trace (os s) ++ [EvCreate (logfile E out nm) true; EvExec nm] ∧
         ran (units s') ≡ₚ nm :: ran (units s)).
Proof.
  intros Hc. destruct t as [|k]; cbn.
  - unfold step_main. destruct (i s <? N); [| done].
    destruct (results s); [done |]. intros [= <-]. by left.
  - unfold step_go. destruct (units s !! k) as [[nm p]|] eqn:Hk; [| done].
    destruct p as [| |r|r|r]; try done.
    + destruct (throttle s <? cap); [| done]. intros [= <-]. left.
      split; [done |]. by apply (ran_insert_same _ _ _ Pending).
    + rewrite (runTest_created E nm out (os s) (Hc _ _)). intros [= <-].
      right. exists nm. split; [done |].
      by apply (ran_insert_new _ _ _ Acquired).
    + destruct (length (results s) <? N); [| done]. intros [= <-]. left.
      split; [done |]. by apply (ran_insert_same _ _ _ (Returned r)).
    + destruct (throttle s); [done |]. intros [= <-]. left.
      split; [done |]. by apply (ran_insert_same _ _ _ (Delivered r)).
Qed.

(** So the calls of a run are, for every test that has been run, one
    creation of its log file, which has succeeded, and one start of its
    script, and no other call. *)
Lemma calls_of_tests (E : Env) (cap N : nat) (out : string) (sched : list tid)
    (s : State) (w0 : OS) (evs : list Event) :
  (∀ w f, Create_err E w f = None) →
  trace (os s) = trace w0 ++ evs →
  made evs = attempts evs → started evs ≡ₚ ran (units s) →
  length evs = 2 * length (ran (units s)) →
  let s' := exec E cap N out sched s in
  ∃ evs', trace (os s') = trace w0 ++ evs' ∧
          made evs' = attempts evs' ∧ started evs' ≡ₚ ran (units s') ∧
          length evs' = 2 * length (ran (units s')).
Proof.
  intros Hc. revert s evs.
  induction sched as [|t sched IH]; intros s evs Ht Hm Hst Hlen.
  { by exists evs. }
  assert (exec E cap N out (t :: sched) s =
          exec E cap N out sched (default s (step E cap N out t s))) as ->
    by reflexivity.
  destruct (step E cap N out t s) as [s1|] eqn:Hs; [| by eapply IH].
  change (default s (Some s1)) with s1.
  destruct (step_calls E cap N out t s s1 Hc Hs) as [[Ho Hr] | (nm & Ho & Hr)].
  - apply (IH s1 evs); by rewrite ?Ho, ?Hr.
  - apply (IH s1 (evs ++ [EvCreate (logfile E out nm) true; EvExec nm])).
    + by rewrite Ho, Ht, app_assoc.
    + unfold made, attempts in *. by rewrite !omap_app, Hm.
    + unfold started in *. rewrite omap_app, Hst, Hr. cbn.
      by rewrite <- Permutation_cons_append.
    + rewrite length_app, Hlen, Hr. cbn. lia.
Qed.

(** X14. On a machine that creates every log file, a run that ends with
    status 0 has made these calls and no others: [MkdirAll] for the output
    directory; for every entry one [os.Create] of its log file, which has
    succeeded, and one start of its script; and last the write of the
    summary file.  As the model has the test scripts themselves create and
    remove no file, the files after the run are those that were there
    before, the log file of every entry and the summary file; when these
    paths differ from each other and are new, the run has added one file
    for each entry and one more. *)
Theorem X14_calls_and_files (E : Env) (jobs : Z) (out : string)
    (args : list string) (sched : list tid) (w : OS) (s' : State) :
  (∀ w f, Create_err E w f = None) →
  main E jobs out args sched w = Exit0 s' →
  let f := filepath_Join E out "summary.txt" in
  ∃ entries evs,
    globAll E args [] = inr entries ∧
    trace (os s') = trace w ++ [EvMkdirAll out] ++ evs ++ [EvWriteFile f true] ∧
    length evs = 2 * length entries ∧
    made evs = attempts evs ∧
    attempts evs ≡ₚ logfile E out <$> entries ∧
    started evs ≡ₚ entries ∧
    dom (files (os s')) =
      dom (files w) ∪ list_to_set (logfile E out <$> entries) ∪ {[f]} ∧
    (NoDup (f :: (logfile E out <$> entries)) →
     (∀ g, g ∈ f :: (logfile E out <$> entries) → files w !! g = None) →
     size (files (os s')) = size (files w) + length entries + 1).
Proof.
  intros Hc H f. apply main_Exit0_inv in H
    as (entries & _ & _ & Hglob & _ & _ & HI & Hi & Hfin).
  set (w1 := emit (EvMkdirAll out) w) in *.
  set (s := exec E _ _ _ _ _) in *.
  destruct (finish_cases E out s) as [(e & w2 & _ & Hf & _) | [_ Hf]];
    rewrite Hf in Hfin; [done |]. injection Hfin as <-. cbn [os files trace].
  destruct (loop_ended E _ out entries _ s HI Hi)
    as (_ & _ & _ & _ & evs & Ht & Ha & Hd).
  destruct (calls_of_tests E (Z.to_nat jobs) (length entries) out sched
              (init entries w1) w1 [] Hc)
    as (evs' & Ht' & Hm & Hst & Hlen);
    [by rewrite app_nil_r | done | by cbn; rewrite ran_init
    | by cbn; rewrite ran_init |].
  fold s in Ht', Hst, Hlen. rewrite Ht in Ht'. apply app_inv_head in Ht'.
  subst evs'.
  pose proof (inv_results _ _ _ _ _ _ HI) as Hr.
  pose proof (Inv_length _ _ _ _ _ _ HI) as Hlen'.
  pose proof (countb_le has_sent (units s)) as Hle.
  assert (ran (units s) = entries) as Hran.
  { rewrite ran_all by lia. apply (inv_names _ _ _ _ _ _ HI). }
  rewrite Hran in Hst, Hlen.
  assert (dom (<[f := summary_text E (os s) (sort_Strings (failed s))]>
                 (files (os s))) =
          dom (files w) ∪ list_to_set (logfile E out <$> entries) ∪ {[f]})
    as Hdom.
  { rewrite dom_insert_L, Hd, Hm. cbn [files emit].
    rewrite (list_to_set_perm_L _ _ Ha). by rewrite (comm_L (∪) {[_]}). }
  exists entries, evs. split; [done |]. split.
  { rewrite Ht. subst w1. cbn. by rewrite <- !app_assoc. }
  do 4 (split; [done |]). split; [exact Hdom |].
  intros Hnd Hnew.
  rewrite <- (size_dom (D := gset string) (<[f := _]> (files (os s)))), Hdom.
  assert (dom (files w) ∪ list_to_set (logfile E out <$> entries) ∪ {[f]} =
          dom (files w) ∪
          (list_to_set (f :: (logfile E out <$> entries)) : gset string))
    as ->.
  { cbn [list_to_set]. rewrite <- (assoc_L (∪)). f_equal. apply (comm_L (∪)). }
  rewrite size_union.
  - rewrite size_dom, size_list_to_set by done. cbn [length].
    rewrite length_fmap. lia.
  - intros g Hg Hin. apply elem_of_list_to_set in Hin.
    apply elem_of_dom in Hg as [x Hx]. by rewrite (Hnew g Hin) in Hx.
Qed.

Lemma X14_witness :
  ∃ s', main demo_writable 2 "out" ["t*"] demo_schedule emptyOS = Exit0 s' ∧
        size (files (os s')) = 4.
Proof.
  eexists. split; [vm_compute; reflexivity |].
  match goal with
  | |- size (files (os ?s)) = _ =>
      destruct (X14_calls_and_files demo_writable 2 "out" ["t*"]
                  demo_schedule emptyOS s)
        as (entries & evs & Hg & _ & _ & _ & _ & _ & _ & Hsize)
  end.
  - done.
  - vm_compute. reflexivity.
  - injection Hg as <-. rewrite Hsize; [reflexivity | |].
    + apply (bool_decide_unpack _). vm_compute. exact I.
    + intros g _. reflexivity.
Defined.

(** ** The budget is used *)

Lemma first_acquire (E : Env) (cap : nat) (out : string)
    (entries : list string) (w : OS) (m : nat) :
  m ≤ cap → m ≤ length entries →
  let s := exec E cap (length entries) out (Go <$> seq 0 m) (init entries w) in
  throttle s = m ∧
  ∀ j, m ≤ j → units s !! j = units (init entries w) !! j.
Proof.
  induction m as [|m IH]; intros Hcap Hlen; [done |].
  rewrite seq_S, fmap_app, (exec_app E cap out entries). cbn [fmap list_fmap].
  destruct IH as [Ht Hu]; [lia | lia |].
  set (s := exec E cap (length entries) out (Go <$> seq 0 m) (init entries w))
    in *.
  destruct (lookup_lt_is_Some_2 entries m) as [e He]; [lia |].
  assert (units s !! m = Some (e, Pending)) as Hm.
  { rewrite Hu by lia. cbn. by rewrite list_lookup_fmap, He. }
  cbn. unfold step_go. rewrite Hm, Ht.
  destruct (Nat.ltb_spec m cap); [| lia]. cbn. split; [done |].
  intros j Hj. rewrite list_lookup_insert_ne by lia. apply Hu. lia.
Qed.

(** X15. The bound of the budget is reached: when the first [m] goroutines
    are let go first, with [m] at most the capacity and at most the number
    of entries, [m] tests hold a slot at the same time; and once as many
    hold a slot as there are slots, a goroutine that is waiting for one
    cannot go on. *)
Theorem X15_budget_reached (E : Env) (cap : nat) (out : string)
    (entries : list string) (w : OS) (m : nat) :
  m ≤ cap → m ≤ length entries →
  let N := length entries in
  let s := exec E cap N out (Go <$> seq 0 m) (init entries w) in
  holders s = m ∧
  (m = cap → ∀ k nm, units s !! k = Some (nm, Pending) →
             step_go E cap N out k s = None).
Proof.
  intros Hcap Hlen N s.
  destruct (first_acquire E cap out entries w m Hcap Hlen) as [Ht _].
  fold N s in Ht.
  assert (Inv E cap out entries w s) as HI by apply exec_Inv, Inv_init.
  split; [by rewrite (inv_holders _ _ _ _ _ _ HI) |].
  intros -> k nm Hk. unfold step_go. rewrite Hk, Ht.
  by destruct (Nat.ltb_spec cap cap); [lia |].
Qed.

Lemma X15_witness :
  let s := exec demo 2 3 "out" [Go 0; Go 1] (init ["t1"; "t2"; "t3"] emptyOS) in
  2 ≤ 2 ∧ 2 ≤ 3 ∧ holders s = 2 ∧ step_go demo 2 3 "out" 2 s = None.
Proof.
  intros s. split; [lia |]. split; [lia |].
  destruct (X15_budget_reached demo 2 "out" ["t1"; "t2"; "t3"] emptyOS 2)
    as [Hh Hb]; [lia | cbn; lia |].
  split; [exact Hh |]. exact (Hb eq_refl 2 "t3" eq_refl).
Defined.
